(** * Markov_vs_MonteCarlo: policy iteration and Monte Carlo control

    A shallow embedding of the notebook's solver cells
    ([policy_evaluation], [one_step_lookahead], [policy_iteration],
    [init_env], [one_iteration], [tiny_epsilon_choice], [train_and_test])
    and the properties established about them.

    Numbers.  numpy's float64 values are read as exact rationals ([Q]):
    every [+], [-], [*], [/] and comparison of the source is the
    corresponding operation of [QArith]; rounding is not modelled, and
    a division is only relied on where its divisor is shown not to be 0.
    The transcendental [np.exp] and the power [** 0.3] are kept
    abstract.

    Outcomes.  A Python call returns a value or raises: [Returns] and
    [Raises].  A function that falls off its end returns Python's
    [None], written [Returns None] at an [option] type.  Random draws
    are supplied to a run as a finite list; [Blocked] marks a run that
    the supplied draws do not carry to its end.

    The [print] calls of the solver and the counters kept only for them
    ([evaluation_iterations], [evaluated_policies]) are left out. *)

From Stdlib Require Import QArith Qabs ZArith Lia Lqa.
From stdpp Require Import base list strings.

Local Open Scope Q_scope.

(** ** Python outcomes *)

Module Py.

Inductive exn : Type :=
| IndexError
| KeyError
| TypeError
| ValueError
| NameError
| UnboundLocalError
| ZeroDivisionError.

Inductive outcome (A : Type) : Type :=
| Returns (a : A)
| Raises (e : exn)
| Blocked.

Arguments Returns {A} a.
Arguments Raises {A} e.
Arguments Blocked {A}.

Definition obind {A B} (o : outcome A) (k : A -> outcome B) : outcome B :=
  match o with
  | Returns a => k a
  | Raises e => Raises e
  | Blocked => Blocked
  end.

(** [l[i]] on a sequence: [IndexError] out of range. *)
Definition subscript {A} (l : list A) (i : nat) : outcome A :=
  match l !! i with
  | Some x => Returns x
  | None => Raises IndexError
  end.

(** [d[k]] on a dict keyed by [0 .. n-1]: [KeyError] on a missing key. *)
Definition dict_get {A} (d : list A) (k : nat) : outcome A :=
  match d !! k with
  | Some x => Returns x
  | None => Raises KeyError
  end.

(** [V[i]] when [V] may be [None]: subscripting [None] is a [TypeError]. *)
Definition subscript_opt {A} (V : option (list A)) (i : nat) : outcome A :=
  match V with
  | None => Raises TypeError
  | Some l => subscript l i
  end.

(** A [for x in xs] loop threading the loop-carried variables [s]. *)
Fixpoint for_each {S K} (xs : list K) (body : S -> K -> outcome S) (s : S)
  : outcome S :=
  match xs with
  | [] => Returns s
  | x :: xs' => obind (body s x) (for_each xs' body)
  end.

(** The exceptions of a failed lookup. *)
Definition lookup_error (e : exn) : Prop := e = IndexError \/ e = KeyError.

(** Passes [xs] of a loop no two of which touch the same key. *)
Fixpoint apart {X Key} (touches : X -> Key -> Prop) (xs : list X) : Prop :=
  match xs with
  | [] => True
  | x :: xs' => (forall k y, touches x k -> In y xs' -> ~ touches y k)
                /\ apart touches xs'
  end.

End Py.
Export Py.

(** ** numpy helpers *)

Module Np.

Definition Qlt_bool (x y : Q) : bool := negb (Qle_bool y x).

(** Python's builtin [max(a, b)]: [b] only when [b > a]. *)
Definition pymax (a b : Q) : Q := if Qlt_bool a b then b else a.

Fixpoint argmax_from (best_i : nat) (best : Q) (i : nat) (l : list Q) : nat :=
  match l with
  | [] => best_i
  | x :: t =>
      if Qlt_bool best x then argmax_from i x (S i) t
      else argmax_from best_i best (S i) t
  end.

(** [np.argmax]: the first index holding the maximum; an empty sequence
    is a [ValueError]. *)
Definition argmax (l : list Q) : outcome nat :=
  match l with
  | [] => Raises ValueError
  | x :: t => Returns (argmax_from 0%nat x 1%nat t)
  end.

(** [np.zeros(n)], [np.zeros((r, c))]. *)
Definition zeros (n : nat) : list Q := replicate n 0.
Definition zeros2 (r c : nat) : list (list Q) := replicate r (zeros c).

(** [np.eye(n)[k]]. *)
Definition eye_row (n k : nat) : outcome (list Q) :=
  if (k <? n)%nat then Returns (<[k := 1]> (zeros n)) else Raises IndexError.

End Np.
Export Np.

Declare Scope outcome_scope.
Delimit Scope outcome_scope with out.

Notation "x ← m ; k" := (obind m (fun x => k))
  (at level 20, m at level 100, k at level 200, only parsing) : outcome_scope.
Notation "' p ← m ; k" := (obind m (fun x => match x with p => k end))
  (at level 20, p pattern, m at level 100, k at level 200, only parsing)
  : outcome_scope.

(** ** Policy iteration over a known transition table *)

Module PolicyIteration.

Local Open Scope outcome_scope.

(** One record [(probability, next_state, reward, terminated)] of
    [environment.P[state][action]]. *)
Record transition : Type := Transition
  { t_prob : Q; t_next : nat; t_reward : Q; t_done : bool }.

(** The fields of the gym environment the solver reads: [nS], [nA] and
    the table [P], a dict of dicts keyed by state and by action. *)
Record environment : Type := Environment
  { nS : nat; nA : nat; P : list (list (list transition)) }.

Abbreviation policy_t := (list (list Q)) (only parsing).

(** Defaults of [policy_evaluation]: [theta=1e-9], [max_iterations=1e9]
    (read through [int(...)]). *)
Definition default_theta : Q := 1 # 1000000000.
Definition default_max_iterations : nat := Z.to_nat 1000000000.

(** Body of [for state_probability, next_state, reward, terminated in
    environment.P[state][action]]. *)
Definition backup_outcome (V : list Q) (discount_factor action_probability : Q)
    (v : Q) (tr : transition) : outcome Q :=
  Vn ← subscript V (t_next tr);
  Returns (v + action_probability * t_prob tr
               * (t_reward tr + discount_factor * Vn)).

(** Body of [for action, action_probability in enumerate(policy[state])]. *)
Definition backup_action (environment : environment) (state : nat)
    (V : list Q) (discount_factor : Q) (v : Q) (ap : nat * Q) : outcome Q :=
  Ps ← dict_get (P environment) state;
  trs ← dict_get Ps (fst ap);
  for_each trs (backup_outcome V discount_factor (snd ap)) v.

(** Body of [for state in range(environment.nS)]; the loop-carried
    variables are [V] (mutated in place) and [delta]. *)
Definition evaluate_state (policy : policy_t) (environment : environment)
    (discount_factor : Q) (acc : list Q * Q) (state : nat)
  : outcome (list Q * Q) :=
  let '(V, delta) := acc in
  row ← subscript policy state;
  v ← for_each (imap pair row)
        (backup_action environment state V discount_factor) 0;
  Vs ← subscript V state;
  Returns (<[state := v]> V, pymax delta (Qabs (Vs - v))).

(** One pass of the outer loop body up to the test [delta < theta]. *)
Definition sweep (policy : policy_t) (environment : environment)
    (discount_factor : Q) (V : list Q) : outcome (list Q * Q) :=
  for_each (seq 0 (nS environment))
    (evaluate_state policy environment discount_factor) (V, 0).

(** [for i in range(n): body; if cond: return r]: [inr r] leaves the
    function with [r], [inl s] goes round again, and a loop that runs
    out falls off the end of the function, which returns [None]. *)
Fixpoint for_range_return {S R} (n : nat) (body : S -> outcome (S + R))
    (s : S) : outcome (option R) :=
  match n with
  | O => Returns None
  | Datatypes.S n' =>
      match body s with
      | Returns (inl s') => for_range_return n' body s'
      | Returns (inr r) => Returns (Some r)
      | Raises e => Raises e
      | Blocked => Blocked
      end
  end.

Definition evaluation_round (policy : policy_t) (environment : environment)
    (discount_factor theta : Q) (V : list Q) : outcome (list Q + list Q) :=
  '(V', delta) ← sweep policy environment discount_factor V;
  if Qlt_bool delta theta then Returns (inr V') else Returns (inl V').

Definition policy_evaluation (policy : policy_t) (environment : environment)
    (discount_factor theta : Q) (max_iterations : nat)
  : outcome (option (list Q)) :=
  for_range_return max_iterations
    (evaluation_round policy environment discount_factor theta)
    (zeros (nS environment)).

(** Body of the innermost loop of [one_step_lookahead]; [V] is whatever
    [policy_evaluation] returned, possibly [None]. *)
Definition lookahead_outcome (V : option (list Q)) (discount_factor : Q)
    (action : nat) (action_values : list Q) (tr : transition)
  : outcome (list Q) :=
  Vn ← subscript_opt V (t_next tr);
  cur ← subscript action_values action;
  Returns (<[action := cur + t_prob tr * (t_reward tr + discount_factor * Vn)]>
             action_values).

Definition one_step_lookahead (environment : environment) (state : nat)
    (V : option (list Q)) (discount_factor : Q) : outcome (list Q) :=
  for_each (seq 0 (nA environment))
    (fun action_values action =>
       Ps ← dict_get (P environment) state;
       trs ← dict_get Ps action;
       for_each trs (lookahead_outcome V discount_factor action) action_values)
    (zeros (nA environment)).

(** Body of the improvement loop [for state in range(environment.nS)];
    loop-carried: [policy] (mutated in place) and [stable_policy]. *)
Definition improve_state (environment : environment) (V : option (list Q))
    (discount_factor : Q) (acc : policy_t * bool) (state : nat)
  : outcome (policy_t * bool) :=
  let '(policy, stable_policy) := acc in
  row ← subscript policy state;
  current_action ← argmax row;
  action_value ← one_step_lookahead environment state V discount_factor;
  best_action ← argmax action_value;
  if (current_action =? best_action)%nat then Returns (policy, stable_policy)
  else
    e ← eye_row (nA environment) best_action;
    Returns (<[state := e]> policy, false).

(** One pass of the outer loop of [policy_iteration]. *)
Definition improvement_round (environment : environment) (discount_factor : Q)
    (policy : policy_t)
  : outcome (policy_t + (policy_t * option (list Q))) :=
  V ← policy_evaluation policy environment discount_factor
        default_theta default_max_iterations;
  '(policy', stable_policy) ←
     for_each (seq 0 (nS environment))
       (improve_state environment V discount_factor) (policy, true);
  if stable_policy then Returns (inr (policy', V)) else Returns (inl policy').

(** [np.ones([nS, nA]) / nA]. *)
Definition uniform_policy (environment : environment) : policy_t :=
  replicate (nS environment)
    (replicate (nA environment) (1 / inject_Z (Z.of_nat (nA environment)))).

Definition policy_iteration (environment : environment) (discount_factor : Q)
    (max_iterations : nat) : outcome (option (policy_t * option (list Q))) :=
  for_range_return max_iterations
    (improvement_round environment discount_factor)
    (uniform_policy environment).

(** The loop-carried state after [k] passes of such a loop that all went
    round again; [None] when one of them left the loop or did not
    finish. *)
Fixpoint after_passes {S R} (k : nat) (body : S -> outcome (S + R)) (s : S)
  : option S :=
  match k with
  | O => Some s
  | Datatypes.S k' =>
      match body s with
      | Returns (inl s') => after_passes k' body s'
      | _ => None
      end
  end.

(** The two actions [improve_state] compares in a state: the current
    one, [np.argmax(policy[state])], and the greedy one,
    [np.argmax(one_step_lookahead(...))]. *)
Definition compared_actions (environment : environment)
    (V : option (list Q)) (discount_factor : Q) (policy : policy_t)
    (state : nat) : outcome (nat * nat) :=
  row ← subscript policy state;
  current_action ← argmax row;
  action_value ← one_step_lookahead environment state V discount_factor;
  best_action ← argmax action_value;
  Returns (current_action, best_action).

(** A transition table as the data model describes it: one entry per
    state and action, probabilities that are non-negative and sum to 1,
    successors among the states. *)
Definition valid_entry (nS : nat) (trs : list transition) : bool :=
  forallb (fun tr => Qle_bool 0 (t_prob tr) && (t_next tr <? nS)%nat) trs
  && Qeq_bool (foldr Qplus 0 (map t_prob trs)) 1.

Definition valid_table (environment : environment) : bool :=
  (length (P environment) =? nS environment)%nat
  && forallb
       (fun row => (length row =? nA environment)%nat
                   && forallb (valid_entry (nS environment)) row)
       (P environment).

(** *** Example tables *)

(** One state, one action: the move pays 1 and ends the episode. *)
Definition terminal_loop : environment :=
  Environment 1 1 [[[Transition 1 0%nat 1 true]]].

(** Two actions in state 0, both ending the episode in the absorbing
    state 1: the first pays 0, the second pays 1. *)
Definition two_armed : environment :=
  Environment 2 2
    [[[Transition 1 1%nat 0 true]; [Transition 1 1%nat 1 true]];
     [[Transition 1 1%nat 0 true]; [Transition 1 1%nat 0 true]]].

(** What the solver finds on [two_armed] with a discount factor of 1:
    the value function of the uniform policy, and the final policy with
    its value function. *)
Definition two_armed_value : list Q :=
  Eval vm_compute in
    match policy_evaluation (uniform_policy two_armed) two_armed 1
            default_theta 5 with
    | Returns (Some V) => V
    | _ => []
    end.

Definition two_armed_solution : list (list Q) * option (list Q) :=
  Eval lazy in
    match policy_iteration two_armed 1 5 with
    | Returns (Some r) => r
    | _ => ([], None)
    end.

(** The first sweep of the evaluation of the uniform policy on
    [two_armed], and the lookahead in state 0 on the value function of
    that policy. *)
Definition two_armed_swept : list Q * Q :=
  Eval vm_compute in
    match sweep (uniform_policy two_armed) two_armed 1 (zeros 2) with
    | Returns r => r
    | _ => ([], 0)
    end.

Definition two_armed_lookahead : list Q :=
  Eval vm_compute in
    match one_step_lookahead two_armed 0 (Some two_armed_value) 1 with
    | Returns av => av
    | _ => []
    end.

(** *** Notions used to state what the solver computes *)

(** The value the evaluation loop computes for [state] from the vector
    [V]: the two inner loops of [policy_evaluation]. *)
Definition state_backup (policy : policy_t) (environment : environment)
    (discount_factor : Q) (V : list Q) (state : nat) : outcome Q :=
  row ← subscript policy state;
  for_each (imap pair row)
    (backup_action environment state V discount_factor) 0.

(** The sum the lookahead accumulates over the records of one action,
    [probability * (reward + discount_factor * V[next_state])]. *)
Definition expected_value (V : list Q) (discount_factor : Q)
    (trs : list transition) : Q :=
  foldl (fun acc tr =>
           acc + t_prob tr
                 * (t_reward tr + discount_factor * default 0 (V !! t_next tr)))
    0 trs.

(** A table with the [terminated] flag of every record rewritten. *)
Definition reflag (f : transition -> bool) (environment : environment)
  : PolicyIteration.environment :=
  Environment (nS environment) (nA environment)
    (map (map (map (fun tr =>
       Transition (t_prob tr) (t_next tr) (t_reward tr) (f tr))))
       (P environment)).

(** The rows a policy of the solver is made of: a row of
    [np.ones([nS, nA]) / nA], and the row [np.eye(nA)[k]]. *)
Definition uniform_row (environment : environment) : list Q :=
  replicate (nA environment) (1 / inject_Z (Z.of_nat (nA environment))).

Definition one_hot (n k : nat) : list Q := <[k := 1]> (zeros n).

(** One more record added to that sum. *)
Definition expected_step (V : list Q) (discount_factor : Q) (acc : Q)
    (tr : transition) : Q :=
  acc + t_prob tr
        * (t_reward tr + discount_factor * default 0 (V !! t_next tr)).

(** The rows a policy of the solver is made of: one per state, each the
    uniform row of the initial policy or a row of [np.eye]. *)
Definition policy_rows (environment : environment) (policy : policy_t)
  : Prop :=
  length policy = nS environment
  /\ forall s row, policy !! s = Some row ->
       row = uniform_row environment
       \/ exists k, (k < nA environment)%nat
                    /\ row = one_hot (nA environment) k.

End PolicyIteration.

(** ** Monte Carlo estimation from sampled episodes *)

Module MonteCarlo.

(** What the notebook's cells read from the kernel's global namespace:
    the gym environment [env] (its hidden state, [reset] and [step], the
    latter returning [(state, reward, done)]; a gym environment draws
    from a generator of its own, which is part of its state), the names
    [array_of_choices] and [random_policy_matrix] read by [one_iteration]
    and by the example cell, the name [test_win] read by
    [train_and_test] (bound or not), and numpy's [exp] and [**]. *)
Class Kernel : Type := {
  Env : Type;
  env_reset : Env -> Env;
  env_step : Env -> nat -> Env * (nat * Q * bool);
  array_of_choices : list nat;
  random_policy_matrix : list (list Q);
  test_win : option Q;
  np_exp : Q -> Q;
  np_pow : Q -> Q -> Q
}.

(** One result of the global generator [np.random]: a float of
    [np.random.uniform(0,1)], or the position picked by
    [np.random.choice]. *)
Inductive draw : Type :=
| Uniform (u : Q)
| Choice (k : nat).

(** The trace of a run, in order: each call of [one_iteration] with its
    arguments, each [env.reset()], and each [env.step(action)] with what
    it returned. *)
Inductive event : Type :=
| EvEpisode (policy : string) (epsilon : Q)
| EvReset
| EvStep (action next_state : nat) (reward : Q) (done : bool).

(** One slot [sa_valmat[i,j,:]]: channel 0 is the running average,
    channel 1 the cumulative visit count. *)
Record cell : Type := Cell { value : Q; count : Q }.

Abbreviation sa_matrix := (list (list cell)) (only parsing).

(** [m[i,j]] on a two-dimensional array held as a list of rows. *)
Definition slot {A} (m : list (list A)) (i j : nat) : option A :=
  match m !! i with
  | Some row => row !! j
  | None => None
  end.

(** The shape of such an array as the lengths of its rows; every numpy
    array is rectangular. *)
Definition shape0 {A} (m : list (list A)) : nat := length m.
Definition shape1 {A} (m : list (list A)) : nat := length (default [] (head m)).
Definition rectangular {A} (m : list (list A)) : Prop :=
  map length m = replicate (shape0 m) (shape1 m).

(** The float holding a count. *)
Definition of_count (n : nat) : Q := inject_Z (Z.of_nat n).

(** What a list of events says about episodes: how many times the pair
    [(i, j)] was played when the agent started in state [s], the rewards
    received, and the calls of [one_iteration] with their arguments. *)
Fixpoint occurrences (i j s : nat) (evs : list event) : nat :=
  match evs with
  | [] => 0
  | EvStep a s' _ _ :: rest =>
      ((if (s =? i)%nat && (a =? j)%nat then 1 else 0)
       + occurrences i j s' rest)%nat
  | _ :: rest => occurrences i j s rest
  end.

Fixpoint rewards (evs : list event) : list Q :=
  match evs with
  | [] => []
  | EvStep _ _ r _ :: rest => r :: rewards rest
  | _ :: rest => rewards rest
  end.

Fixpoint calls (evs : list event) : list (string * Q) :=
  match evs with
  | [] => []
  | EvEpisode policy epsilon :: rest => (policy, epsilon) :: calls rest
  | _ :: rest => calls rest
  end.

Definition is_step (e : event) : Prop :=
  match e with EvStep _ _ _ _ => True | _ => False end.

Section WithKernel.

Context `{K : Kernel}.

Record world : Type := World
  { w_env : Env; w_rng : list draw; w_events : list event }.

(** State and outcome: what a call does to the world and how it ends. *)
Definition M (A : Type) : Type := world -> outcome A * world.

Definition ret {A} (a : A) : M A := fun w => (Returns a, w).

Definition bind {A B} (m : M A) (k : A -> M B) : M B :=
  fun w =>
    match m w with
    | (Returns a, w') => k a w'
    | (Raises e, w') => (Raises e, w')
    | (Blocked, w') => (Blocked, w')
    end.

Definition lift {A} (o : outcome A) : M A := fun w => (o, w).

Definition emit (e : event) : M unit :=
  fun w => (Returns tt, World (w_env w) (w_rng w) (w_events w ++ [e])).

(** The events between two worlds of one run. *)
Definition episode (w w' : world) : list event :=
  drop (length (w_events w)) (w_events w').

End WithKernel.

Declare Scope M_scope.
Delimit Scope M_scope with M.
Notation "x ← m ; k" := (bind m (fun x => k))
  (at level 20, m at level 100, k at level 200, only parsing) : M_scope.
Notation "' p ← m ; k" := (bind m (fun x => match x with p => k end))
  (at level 20, p pattern, m at level 100, k at level 200, only parsing)
  : M_scope.

Section Estimator.

Context `{K : Kernel}.

Local Open Scope M_scope.

(** [env.reset()]. *)
Definition reset_env : M unit :=
  fun w => (Returns tt,
            World (env_reset (w_env w)) (w_rng w) (w_events w ++ [EvReset])).

(** [env.step(action)]. *)
Definition step_env (action : nat) : M (nat * Q * bool) :=
  fun w =>
    let '(e', (s', r, d)) := env_step (w_env w) action in
    (Returns (s', r, d),
     World e' (w_rng w) (w_events w ++ [EvStep action s' r d])).

(** [np.random.uniform(0,1)]. *)
Definition np_random_uniform : M Q :=
  fun w =>
    match w_rng w with
    | Uniform u :: rest => (Returns u, World (w_env w) rest (w_events w))
    | _ => (Blocked, w)
    end.

(** [np.random.choice(a, p=p)]: [a] and [p] must have the same size; the
    element returned is the one at the drawn position. *)
Definition np_random_choice (a : list nat) (p : list Q) : M nat :=
  fun w =>
    if negb (length a =? length p)%nat then (Raises ValueError, w)
    else
      match w_rng w with
      | Choice k :: rest =>
          match a !! k with
          | Some x => (Returns x, World (w_env w) rest (w_events w))
          | None => (Blocked, w)
          end
      | _ => (Blocked, w)
      end.

(** Reading a local name that may not have been assigned yet. *)
Definition read_local {A} (x : option A) : M A :=
  match x with
  | Some a => ret a
  | None => lift (Raises UnboundLocalError)
  end.

(** Reading a global name. *)
Definition read_global {A} (x : option A) : M A :=
  match x with
  | Some a => ret a
  | None => lift (Raises NameError)
  end.

Fixpoint for_eachM {S X} (xs : list X) (body : S -> X -> M S) (s : S) : M S :=
  match xs with
  | [] => ret s
  | x :: xs' => s' ← body s x; for_eachM xs' body s'
  end.

(** The loop-carried variables of the [while] loop of [one_iteration]. *)
Record locals : Type := Locals
  { sa_occurence_matrix : list (list Q);
    done : bool;
    state : nat;
    rew : Q;
    step_count : nat;
    action : option nat }.

Definition init_env : M locals :=
  let sa_occurence_matrix := zeros2 16 4 in
  _ ← reset_env;
  ret (Locals sa_occurence_matrix false 0%nat 0 0%nat None).

(** [np.argmax(sa_valmat[state,:,0])]. *)
Definition greedy_choice (sa_valmat : sa_matrix) (state : nat) : outcome nat :=
  (row ← subscript sa_valmat state;
   argmax (map value row))%out.

(** [np.random.choice(array_of_choices, p=random_policy_matrix[state])]. *)
Definition random_choice (random_policy_matrix : list (list Q)) (state : nat)
  : M nat :=
  p ← lift (subscript random_policy_matrix state);
  np_random_choice array_of_choices p.

Definition tiny_epsilon_choice (sa_valmat : sa_matrix) (state : nat)
    (random_policy_matrix : list (list Q)) (epsilon : Q) : M nat :=
  random_shot ← np_random_uniform;
  if Qle_bool epsilon random_shot then
    lift (greedy_choice sa_valmat state)
  else
    random_choice random_policy_matrix state.

(** [np.exp(x)**0.3 / np.sum(np.exp(x)**0.3)] over a row. *)
Definition softmax_weights (x : list Q) : list Q :=
  let w := map (fun v => np_pow (np_exp v) (3 # 10)) x in
  map (fun v => v / foldr Qplus 0 w) w.

(** The [if]/[elif] chain that picks the action; with no branch taken
    the local [action] keeps what it held. *)
Definition choose_action (sa_valmat : sa_matrix) (policy : string)
    (epsilon : Q) (l : locals) : M (option nat) :=
  if String.eqb policy "random" then
    a ← random_choice random_policy_matrix (state l);
    ret (Some a)
  else if String.eqb policy "tiny_epsilon" then
    a ← tiny_epsilon_choice sa_valmat (state l) random_policy_matrix epsilon;
    ret (Some a)
  else if String.eqb policy "softmax" then
    row ← lift (subscript sa_valmat (state l));
    a ← np_random_choice array_of_choices (softmax_weights (map value row));
    ret (Some a)
  else ret (action l).

(** [sa_occurence_matrix[state,action] += 1]. *)
Definition bump (occ : list (list Q)) (state action : nat)
  : outcome (list (list Q)) :=
  (row ← subscript occ state;
   o ← subscript row action;
   Returns (<[state := <[action := o + 1]> row]> occ))%out.

(** The body of [while done == False]. *)
Definition loop_body (sa_valmat : sa_matrix) (policy : string) (epsilon : Q)
    (l : locals) : M locals :=
  let step_count := S (step_count l) in
  action ← choose_action sa_valmat policy epsilon l;
  a ← read_local action;
  occ ← lift (bump (sa_occurence_matrix l) (state l) a);
  '(state, reward, done) ← step_env a;
  ret (Locals occ done state (pymax (rew l) reward) step_count action).

(** The [while] loop; [fuel] bounds the number of passes. *)
Fixpoint while_not_done (fuel : nat) (sa_valmat : sa_matrix) (policy : string)
    (epsilon : Q) (l : locals) : M locals :=
  if done l then ret l
  else
    match fuel with
    | O => lift Blocked
    | S fuel' =>
        l' ← loop_body sa_valmat policy epsilon l;
        while_not_done fuel' sa_valmat policy epsilon l'
    end.

(** The two assignments under [if sa_occurence_matrix[i,j] >= 1]: the
    count channel is incremented first, and the incremented count is the
    divisor of the second assignment. *)
Definition divisor (o : Q) (c : cell) : Q := count c + o.

Definition update_cell (o rew : Q) (c : cell) : cell :=
  let count' := divisor o c in
  Cell (value c + (o / count') * (rew - value c)) count'.

(** The body of [for j in range(sa_valmat.shape[1])]. *)
Definition update_slot (occ : list (list Q)) (rew : Q) (i : nat)
    (sa_valmat : sa_matrix) (j : nat) : outcome sa_matrix :=
  (orow ← subscript occ i;
   o ← subscript orow j;
   if Qle_bool 1 o then
     row ← subscript sa_valmat i;
     c ← subscript row j;
     Returns (<[i := <[j := update_cell o rew c]> row]> sa_valmat)
   else Returns sa_valmat)%out.

(** The nested [for i .. for j ..] after the episode. *)
Definition update_values (occ : list (list Q)) (rew : Q) (sa_valmat : sa_matrix)
  : outcome sa_matrix :=
  let cols := shape1 sa_valmat in
  for_each (seq 0 (shape0 sa_valmat))
    (fun m i => for_each (seq 0 cols) (update_slot occ rew i) m)
    sa_valmat.

Definition default_epsilon : Q := 1 # 10.

(** [one_iteration(sa_valmat, policy, epsilon)].  Every pass of the
    loop that finishes takes at least one draw, so the passes are
    bounded by the draws that are left. *)
Definition one_iteration (sa_valmat : sa_matrix) (policy : string)
    (epsilon : Q) : M (sa_matrix * Q * nat) :=
  _ ← emit (EvEpisode policy epsilon);
  l ← init_env;
  l ← (fun w => while_not_done (S (length (w_rng w)))
                  sa_valmat policy epsilon l w);
  sa_valmat' ← lift (update_values (sa_occurence_matrix l) (rew l) sa_valmat);
  ret (sa_valmat', rew l, step_count l).

(** [np.zeros((16,4,2))] followed by [sa_valmat[:,:,0] += 0.01]. *)
Definition initial_sa_valmat : sa_matrix :=
  replicate 16 (replicate 4 (Cell (0 + (1 # 100)) 0)).

(** [0.5 - (np.exp(i/train_epochs)/(1+np.exp(i/train_epochs)))/2]. *)
Definition epsilon_schedule (i train_epochs : nat) : Q :=
  let x := inject_Z (Z.of_nat i) / inject_Z (Z.of_nat train_epochs) in
  (1 # 2) - (np_exp x / (1 + np_exp x)) / 2.

(** Python's [x / n]. *)
Definition pydiv (x : Q) (n : nat) : outcome Q :=
  if (n =? 0)%nat then Raises ZeroDivisionError
  else Returns (x / inject_Z (Z.of_nat n)).

(** [for i in range(10)]: loop-carried [sa_valmat] and [train_wins]. *)
Definition warm_up (st : sa_matrix * Q) : M (sa_matrix * Q) :=
  for_eachM (seq 0 10)
    (fun '(sa_valmat, train_wins) _ =>
       '(sa_valmat, rew, _) ← one_iteration sa_valmat "random" default_epsilon;
       ret (sa_valmat, train_wins + rew))
    st.

(** [for i in range(train_epochs)]. *)
Definition training (policy : string) (train_epochs : nat)
    (st : sa_matrix * Q) : M (sa_matrix * Q) :=
  for_eachM (seq 0 train_epochs)
    (fun '(sa_valmat, train_wins) i =>
       let epsilon := epsilon_schedule i train_epochs in
       '(sa_valmat, rew, step_count) ← one_iteration sa_valmat policy epsilon;
       ret (sa_valmat, train_wins + rew))
    st.

(** [for i in range(test_epochs)]: besides [sa_valmat] the body updates
    the locals [wins] and [logging_test_step_count], which no statement
    of the function assigns before the loop. *)
Definition testing (test_epochs : nat)
    (st : sa_matrix * option Q * option nat)
  : M (sa_matrix * option Q * option nat) :=
  for_eachM (seq 0 test_epochs)
    (fun '(sa_valmat, wins, logging_test_step_count) _ =>
       let epsilon := 0 in
       '(sa_valmat, rew_pol, step_count) ←
          one_iteration sa_valmat "tiny_epsilon" epsilon;
       w ← read_local wins;
       let wins := Some (w + rew_pol) in
       n ← read_local logging_test_step_count;
       let logging_test_step_count := Some (n + step_count)%nat in
       ret (sa_valmat, wins, logging_test_step_count))
    st.

(** [return test_win, test_wins/test_epochs, train_wins,
    train_wins/train_epochs], evaluated left to right. *)
Definition return_statement (test_wins train_wins : Q)
    (train_epochs test_epochs : nat) : M (Q * Q * Q * Q) :=
  test_win ← read_global test_win;
  test_rate ← lift (pydiv test_wins test_epochs);
  train_rate ← lift (pydiv train_wins train_epochs);
  ret (test_win, test_rate, train_wins, train_rate).

(** [train_and_test(policy, train_epochs, test_epochs)].  The locals
    [random_policy_matrix] and [array_of_choices] it builds are read by
    nothing: [one_iteration] reads the global names. *)
Definition train_and_test (policy : string) (train_epochs test_epochs : nat)
  : M (Q * Q * Q * Q) :=
  let sa_valmat := initial_sa_valmat in
  let train_wins := 0 in
  let test_wins := 0 in
  '(sa_valmat, train_wins) ← warm_up (sa_valmat, train_wins);
  '(sa_valmat, train_wins) ←
     training policy train_epochs (sa_valmat, train_wins);
  _ ← testing test_epochs (sa_valmat, None, None);
  return_statement test_wins train_wins train_epochs test_epochs.

(** *** Notions used to state what runs do *)

(** What the guarded assignments make of the slot [(i, j)]. *)
Definition updated (occ : list (list Q)) (rew : Q) (k : nat * nat) (c : cell)
  : cell :=
  match slot occ (fst k) (snd k) with
  | Some o => if Qle_bool 1 o then update_cell o rew c else c
  | None => c
  end.

Definition slot_at (m : list (list cell)) (k : nat * nat) : option cell :=
  slot m (fst k) (snd k).

Definition counted (occ : list (list Q)) (k : nat * nat) : Prop :=
  is_Some (slot occ (fst k) (snd k)).

(** A computation that only adds events, all of them of one kind. *)
Definition appends {A} (P : list event -> Prop) (m : M A) : Prop :=
  forall w o w', m w = (o, w') ->
    exists evs, w_events w' = w_events w ++ evs /\ P evs.

Definition additive (P : list event -> Prop) : Prop :=
  P [] /\ forall a b, P a -> P b -> P (a ++ b).

Definition silent (evs : list event) : Prop := evs = [].

Definition no_calls (evs : list event) : Prop := calls evs = [].

(** The three policy names [one_iteration] knows. *)
Definition recognised (policy : string) : bool :=
  String.eqb policy "random" || String.eqb policy "tiny_epsilon"
  || String.eqb policy "softmax".

(** The occurrence matrix holds, in every slot, the count [f] says. *)
Definition occ_counts (occ : list (list Q)) (f : nat -> nat -> nat) : Prop :=
  forall i j q, slot occ i j = Some q -> q = of_count (f i j).

(** The arguments of the call a pass of each phase makes. *)
Definition warm_up_call : nat -> string * Q :=
  fun _ => ("random", default_epsilon).
Definition training_call (policy : string) (train_epochs : nat)
  : nat -> string * Q :=
  fun i => (policy, epsilon_schedule i train_epochs).
Definition testing_call : nat -> string * Q := fun _ => ("tiny_epsilon", 0).

(** The calls of [one_iteration] a full run of [train_and_test] makes. *)
Definition schedule (policy : string) (train_epochs test_epochs : nat)
  : list (string * Q) :=
  replicate 10 ("random", default_epsilon)
  ++ map (fun i => (policy, epsilon_schedule i train_epochs))
       (seq 0 train_epochs)
  ++ replicate test_epochs ("tiny_epsilon", 0).

(** The matrices a training run can hold: the initial one, and what
    [one_iteration] returns when given one of them. *)
Inductive reachable : list (list cell) -> Prop :=
| reachable_initial : reachable initial_sa_valmat
| reachable_episode sa_valmat policy epsilon w sa_valmat' rew n w' :
    reachable sa_valmat ->
    one_iteration sa_valmat policy epsilon w = (Returns (sa_valmat', rew, n), w') ->
    reachable sa_valmat'.

(** A step after which the episode goes on. *)
Definition open_step (e : event) : Prop :=
  match e with EvStep _ _ _ d => d = false | _ => False end.

(** The reward [env.step(action)] returns in a state of the
    environment. *)
Definition step_reward (e : Env) (action : nat) : Q :=
  let '(_, (_, r, _)) := env_step e action in r.

(** Events whose rewards all lie between 0 and 1. *)
Definition unit_rewards (evs : list event) : Prop :=
  Forall (fun r => 0 <= r /\ r <= 1) (rewards evs).

End Estimator.

(** *** A ring world

    Four states on a ring and four actions; action [a] moves [a] places
    round.  Every transition pays 0 except reaching state 3, which pays 1
    and ends the episode.  Rational functions stand in for [np.exp] and
    [**]; no statement below depends on them. *)

Definition ring_step (pos action : nat) : nat * (nat * Q * bool) :=
  let next := ((pos + action) mod 4)%nat in
  (next, (next, if (next =? 3)%nat then 1 else 0, (next =? 3)%nat)).

Definition ring_world : Kernel :=
  {| Env := nat;
     env_reset := fun _ => 0%nat;
     env_step := ring_step;
     array_of_choices := [0; 1; 2; 3]%nat;
     random_policy_matrix := replicate 16 (replicate 4 (0 + (1 # 4)));
     test_win := None;
     np_exp := fun x => 1 + x;
     np_pow := fun x _ => x |}.

(** An episode in the ring world: the agent stays twice in state 0
    (action 0) and then jumps to state 3 (action 3). *)
Definition demo_world : @world ring_world :=
  @World ring_world 0%nat [Choice 0; Choice 0; Choice 3] [].

Definition demo_run
  : outcome (list (list cell) * Q * nat) * @world ring_world :=
  @one_iteration ring_world initial_sa_valmat "random" default_epsilon
    demo_world.

Definition demo_matrix : list (list cell) :=
  Eval vm_compute in
    match fst demo_run with Returns (m, _, _) => m | _ => [] end.

Definition demo_world' : @world ring_world := Eval vm_compute in snd demo_run.

(** A world with draws for twelve episodes: the sampled actions of
    eleven episodes under the random policy, which reach state 3 along
    different paths, and three uniform floats for a greedy episode. *)
Definition training_world : @world ring_world :=
  @World ring_world 0%nat
    (map Choice
       [3; 1; 2; 2; 1; 1; 1; 1; 2; 2; 3; 1; 3; 3; 3; 1; 2; 2; 1; 3; 1; 2]%nat
     ++ replicate 3 (Uniform (1 # 2)))
    [].

(** The run of [train_and_test] in that world with one training and one
    test episode, and where its first two phases leave it. *)
Definition training_run : outcome (Q * Q * Q * Q) * @world ring_world :=
  Eval vm_compute in @train_and_test ring_world "random" 1 1 training_world.

Definition warm_up_run : outcome (list (list cell) * Q) * @world ring_world :=
  Eval vm_compute in @warm_up ring_world (initial_sa_valmat, 0) training_world.

Definition warmed_up : list (list cell) * Q :=
  Eval vm_compute in
    match fst warm_up_run with Returns st => st | _ => ([], 0) end.

Definition trained_run : outcome (list (list cell) * Q) * @world ring_world :=
  Eval vm_compute in
    @training ring_world "random" 1 warmed_up (snd warm_up_run).

Definition trained : list (list cell) * Q :=
  Eval vm_compute in
    match fst trained_run with Returns st => st | _ => ([], 0) end.

(** The first test episode of that run. *)
Definition tested_run
  : outcome (list (list cell) * Q * nat) * @world ring_world :=
  Eval vm_compute in
    @one_iteration ring_world (fst trained) "tiny_epsilon" 0
      (snd trained_run).

Definition tested : list (list cell) * Q * nat :=
  Eval vm_compute in
    match fst tested_run with Returns r => r | _ => ([], 0, 0%nat) end.

(** A world whose next draw is a uniform float. *)
Definition shot_world : @world ring_world :=
  @World ring_world 0%nat [Uniform (1 # 2); Choice 2] [].

End MonteCarlo.

(** * Playing a policy: [play_episodes] *)

Module Simulation.

Import PolicyIteration.

(** The gym environment handed to [play_episodes]: its hidden state
    (which holds the generator it draws from), [reset()] returning the
    first state, and [step(action)] returning [(next_state, reward,
    terminated, info)], of which [info] is never read. *)
Class Gym : Type := {
  GymState : Type;
  gym_reset : GymState -> GymState * nat;
  gym_step : GymState -> nat -> GymState * (nat * Q * bool)
}.

(** [range(n)] for a Python integer [n]: empty when [n] is negative. *)
Definition range (n : Z) : list nat := seq 0 (Z.to_nat n).

(** [x / n] for a float [x] and a Python integer [n]. *)
Definition truediv (x : Q) (n : Z) : outcome Q :=
  if (n =? 0)%Z then Raises ZeroDivisionError else Returns (x / inject_Z n).

Section PlayEpisodes.

Context `{G : Gym}.

Local Open Scope outcome_scope.

(** The environment with the variables the loops carry. *)
Record play : Type := Play
  { gym : GymState;
    terminated : bool;
    state : nat;
    wins : nat;
    total_reward : Q }.

(** The body of [while not terminated]. *)
Definition play_step (policy : policy_t) (p : play) : outcome play :=
  row ← subscript policy (state p);
  action ← argmax row;
  let '(g, (next_state, reward, terminated)) := gym_step (gym p) action in
  let total_reward := total_reward p + reward in
  let wins :=
    if terminated && Qeq_bool reward 1 then S (wins p) else wins p in
  Returns (Play g terminated next_state wins total_reward).

(** The [while] loop; nothing bounds its passes but the environment, so
    the model takes a bound [fuel] and is [Blocked] when it is used up. *)
Fixpoint while_not_terminated (fuel : nat) (policy : policy_t) (p : play)
  : outcome play :=
  if terminated p then Returns p
  else
    match fuel with
    | O => Blocked
    | S fuel' =>
        p' ← play_step policy p;
        while_not_terminated fuel' policy p'
    end.

(** The body of [for episode in range(n_episodes)]. *)
Definition play_episode (fuel : nat) (policy : policy_t) (p : play)
    (episode : nat) : outcome play :=
  let terminated := false in
  let '(g, state) := gym_reset (gym p) in
  while_not_terminated fuel policy
    (Play g terminated state (wins p) (total_reward p)).

(** [play_episodes(environment, n_episodes, policy)], [n_episodes] being
    any Python integer: [range(n_episodes)] is empty for a negative one,
    and the division raises only for 0 (of the [-0.0] that [0 / -1]
    gives, the rationals keep the 0).  [fuel] bounds the steps of each
    episode. *)
Definition play_episodes (fuel : nat) (environment : GymState)
    (n_episodes : Z) (policy : policy_t) : outcome (nat * Q * Q) :=
  let start := {| gym := environment; terminated := false; state := 0%nat;
                  wins := 0%nat; total_reward := 0 |} in
  p ← for_each (range n_episodes) (play_episode fuel policy) start;
  average_reward ← truediv (total_reward p) n_episodes;
  Returns (wins p, total_reward p, average_reward).

(** The reward and the flag a step returns. *)
Definition step_result (g : GymState) (action : nat) : Q * bool :=
  let '(_, (_, reward, terminated)) := gym_step g action in
  (reward, terminated).

(** Rewards that are 0, or 1 on a step that ends the episode. *)
Definition sparse_rewards : Prop :=
  forall g action,
    fst (step_result g action) == 0
    \/ (fst (step_result g action) == 1
        /\ snd (step_result g action) = true).

End PlayEpisodes.

(** The ring of four states as a gym environment: an action moves the
    agent that many places on, and reaching state 3 pays 1 and ends the
    episode. *)
Definition ring_gym : Gym :=
  {| GymState := nat;
     gym_reset := fun _ => (0%nat, 0%nat);
     gym_step := MonteCarlo.ring_step |}.

(** A policy that moves one place on in every state. *)
Definition one_place_on : list (list Q) := replicate 4 (one_hot 4 1).

(** Two episodes of that policy on the ring. *)
Definition ring_tally : nat * Q * Q :=
  Eval vm_compute in
    match @play_episodes ring_gym 5 0%nat 2%Z one_place_on with
    | Returns r => r
    | _ => (0%nat, 0, 0)
    end.

End Simulation.

(** * Properties *)

(** ** Outcomes and loops *)

Lemma Qlt_bool_iff (x y : Q) : Qlt_bool x y = true <-> x < y.
Proof.
  unfold Qlt_bool. rewrite negb_true_iff.
  split.
  - intros H. apply Qnot_le_lt. intros Hle.
    apply Qle_bool_iff in Hle. congruence.
  - intros H. destruct (Qle_bool y x) eqn:E; [|reflexivity].
    apply Qle_bool_iff in E. exfalso. exact (Qlt_not_le _ _ H E).
Qed.

Lemma Qlt_bool_false_iff (x y : Q) : Qlt_bool x y = false <-> y <= x.
Proof.
  unfold Qlt_bool. rewrite negb_false_iff. apply Qle_bool_iff.
Qed.

Lemma obind_returns {A B} (o : outcome A) (k : A -> outcome B) (b : B) :
  obind o k = Returns b <-> exists a, o = Returns a /\ k a = Returns b.
Proof.
  destruct o; simpl; split; try (intros [a' [? ?]]); try discriminate; eauto.
  congruence.
Qed.

Lemma obind_raises {A B} (o : outcome A) (k : A -> outcome B) (e : exn) :
  obind o k = Raises e ->
  o = Raises e \/ exists a, o = Returns a /\ k a = Raises e.
Proof.
  destruct o; simpl; intros H; try discriminate;
    [right; eauto | left; congruence].
Qed.

Lemma obind_blocked {A B} (o : outcome A) (k : A -> outcome B) :
  obind o k = Blocked ->
  o = Blocked \/ exists a, o = Returns a /\ k a = Blocked.
Proof.
  destruct o; simpl; intros H; try discriminate;
    [right; eauto | left; congruence].
Qed.

Section ForEach.

Context {S X : Type} (body : S -> X -> outcome S).

(** A property kept by every pass is kept by the loop. *)
Lemma for_each_invariant (I : S -> Prop) (xs : list X) :
  (forall s x s', In x xs -> I s -> body s x = Returns s' -> I s') ->
  forall s s', I s -> for_each xs body s = Returns s' -> I s'.
Proof.
  induction xs as [|x xs IH]; simpl; intros Hstep s s' Hs Hrun.
  - congruence.
  - apply obind_returns in Hrun as (s1 & H1 & H2).
    eapply IH; [| |exact H2]; eauto.
Qed.

(** A loop raises only what one of its passes raises. *)
Lemma for_each_raises (E : exn -> Prop) (xs : list X) :
  (forall s x e, body s x = Raises e -> E e) ->
  forall s e, for_each xs body s = Raises e -> E e.
Proof.
  intros Hbody. induction xs as [|x xs IH]; simpl; intros s e Hrun.
  - discriminate.
  - apply obind_raises in Hrun as [H|(s1 & H1 & H2)]; eauto.
Qed.

Lemma for_each_not_blocked (xs : list X) :
  (forall s x, body s x <> Blocked) ->
  forall s, for_each xs body s <> Blocked.
Proof.
  intros Hbody. induction xs as [|x xs IH]; simpl; intros s Hrun.
  - discriminate.
  - apply obind_blocked in Hrun as [H|(s1 & H1 & H2)];
      [eapply Hbody | eapply IH]; eauto.
Qed.

End ForEach.

Section ForRangeReturn.

Import PolicyIteration.

Context {S R : Type} (body : S -> outcome (S + R)).

Lemma for_range_return_some (n : nat) (s : S) (r : R) :
  for_range_return n body s = Returns (Some r) <->
  exists k s_k, (k < n)%nat /\ after_passes k body s = Some s_k
                /\ body s_k = Returns (inr r).
Proof.
  revert s. induction n as [|n IH]; intros s; simpl.
  - split; [discriminate | intros (k & ? & ? & _); lia].
  - split.
    + destruct (body s) as [[s'|r']| |] eqn:E; try discriminate.
      * intros H. apply IH in H as (k & s_k & Hk & Hp & Hb).
        exists (Datatypes.S k), s_k. simpl. rewrite E.
        repeat split; [lia | done | done].
      * intros [= ->]. exists 0%nat, s. repeat split; [lia | done].
    + intros (k & s_k & Hk & Hp & Hb). destruct k as [|k]; simpl in Hp.
      * injection Hp as ->. by rewrite Hb.
      * destruct (body s) as [[s'|r']| |] eqn:E; try discriminate.
        apply IH. exists k, s_k. repeat split; [lia | done | done].
Qed.

Lemma for_range_return_none (n : nat) (s : S) :
  for_range_return n body s = Returns None <->
  exists s_n, after_passes n body s = Some s_n.
Proof.
  revert s. induction n as [|n IH]; intros s; simpl.
  - split; eauto.
  - destruct (body s) as [[s'|r']| |] eqn:E; try apply IH;
      (split; [discriminate | intros [? ?]; discriminate]).
Qed.

Lemma for_range_return_raises (n : nat) (s : S) (e : exn) :
  for_range_return n body s = Raises e <->
  exists k s_k, (k < n)%nat /\ after_passes k body s = Some s_k
                /\ body s_k = Raises e.
Proof.
  revert s. induction n as [|n IH]; intros s; simpl.
  - split; [discriminate | intros (k & ? & ? & _); lia].
  - split.
    + destruct (body s) as [[s'|r']| |] eqn:E; try discriminate.
      * intros H. apply IH in H as (k & s_k & Hk & Hp & Hb).
        exists (Datatypes.S k), s_k. simpl. rewrite E.
        repeat split; [lia | done | done].
      * intros [= ->]. exists 0%nat, s. repeat split; [lia | done].
    + intros (k & s_k & Hk & Hp & Hb). destruct k as [|k]; simpl in Hp.
      * injection Hp as ->. by rewrite Hb.
      * destruct (body s) as [[s'|r']| |] eqn:E; try discriminate.
        apply IH. exists k, s_k. repeat split; [lia | done | done].
Qed.

Lemma for_range_return_blocked (n : nat) (s : S) :
  (forall s, body s <> Blocked) -> for_range_return n body s <> Blocked.
Proof.
  intros Hb. revert s. induction n as [|n IH]; intros s; simpl.
  - discriminate.
  - destruct (body s) as [[s'|r']| |] eqn:E; try discriminate; auto.
    by apply Hb in E.
Qed.

Lemma for_range_return_succ (n : nat) (s : S) :
  for_range_return (Datatypes.S n) body s
  = match body s with
    | Returns (inl s') => for_range_return n body s'
    | Returns (inr r) => Returns (Some r)
    | Raises e => Raises e
    | Blocked => Blocked
    end.
Proof. reflexivity. Qed.

(** One more pass that goes round again. *)
Lemma after_passes_succ (k : nat) (s s' : S) :
  after_passes (Datatypes.S k) body s = Some s' <->
  exists s_k, after_passes k body s = Some s_k /\ body s_k = Returns (inl s').
Proof.
  revert s. induction k as [|k IH]; intros s.
  - simpl. destruct (body s) as [[s1|r']| |] eqn:E; split;
      try discriminate; try (intros (s_k & [= <-] & H); congruence).
    intros [= ->]. eauto.
  - change (after_passes (Datatypes.S (Datatypes.S k)) body s)
      with (match body s with
            | Returns (inl s1) => after_passes (Datatypes.S k) body s1
            | _ => None
            end).
    simpl. destruct (body s) as [[s1|r']| |] eqn:E;
      try (split; [discriminate | intros (? & ? & _); discriminate]).
    apply IH.
Qed.

End ForRangeReturn.

(** ** Policy evaluation and policy iteration *)

Module PolicyIterationFacts.

Import PolicyIteration.
Local Open Scope outcome_scope.

Lemma subscript_raises {A} (l : list A) (i : nat) (e : exn) :
  subscript l i = Raises e -> e = IndexError.
Proof. unfold subscript. destruct (l !! i); congruence. Qed.

Lemma dict_get_raises {A} (l : list A) (i : nat) (e : exn) :
  dict_get l i = Raises e -> e = KeyError.
Proof. unfold dict_get. destruct (l !! i); congruence. Qed.

Lemma subscript_not_blocked {A} (l : list A) (i : nat) :
  subscript l i <> Blocked.
Proof. unfold subscript. destruct (l !! i); congruence. Qed.

Lemma dict_get_not_blocked {A} (l : list A) (i : nat) :
  dict_get l i <> Blocked.
Proof. unfold dict_get. destruct (l !! i); congruence. Qed.

Ltac split_bind H :=
  match type of H with
  | obind _ _ = Returns _ =>
      let a := fresh "a" in
      let H1 := fresh "Hstep" in
      apply obind_returns in H as (a & H1 & H)
  | obind _ _ = Raises _ =>
      let a := fresh "a" in
      let H1 := fresh "Hstep" in
      apply obind_raises in H as [H|(a & H1 & H)]
  | obind _ _ = Blocked =>
      let a := fresh "a" in
      let H1 := fresh "Hstep" in
      apply obind_blocked in H as [H|(a & H1 & H)]
  end.

Lemma backup_action_raises environment state V discount_factor v ap e :
  backup_action environment state V discount_factor v ap = Raises e ->
  lookup_error e.
Proof.
  unfold backup_action. intros H.
  split_bind H; [right; eauto using @dict_get_raises|].
  split_bind H; [right; eauto using @dict_get_raises|].
  revert H. apply for_each_raises. clear. intros s x e H.
  unfold backup_outcome in H.
  split_bind H; [left; eauto using @subscript_raises | discriminate].
Qed.

Lemma sweep_raises policy environment discount_factor V e :
  sweep policy environment discount_factor V = Raises e -> lookup_error e.
Proof.
  unfold sweep. apply for_each_raises. clear. intros [V delta] state e H.
  unfold evaluate_state in H.
  split_bind H; [left; eauto using @subscript_raises|].
  split_bind H.
  { revert H. apply for_each_raises. intros ? ? ?.
    apply backup_action_raises. }
  split_bind H; [left; eauto using @subscript_raises | discriminate].
Qed.

Lemma sweep_not_blocked policy environment discount_factor V :
  sweep policy environment discount_factor V <> Blocked.
Proof.
  unfold sweep. apply for_each_not_blocked. clear. intros [V delta] state H.
  unfold evaluate_state in H.
  split_bind H; [by apply subscript_not_blocked in H|].
  split_bind H.
  { revert H. apply for_each_not_blocked. clear. intros v ap H.
    unfold backup_action in H.
    split_bind H; [by apply dict_get_not_blocked in H|].
    split_bind H; [by apply dict_get_not_blocked in H|].
    revert H. apply for_each_not_blocked. clear. intros v tr H.
    unfold backup_outcome in H.
    split_bind H; [by apply subscript_not_blocked in H | discriminate]. }
  split_bind H; [by apply subscript_not_blocked in H | discriminate].
Qed.

(** A pass of the evaluation loop leaves the function exactly when its
    sweep ends with [delta < theta]. *)
Lemma evaluation_round_inr policy environment discount_factor theta V V' :
  evaluation_round policy environment discount_factor theta V
    = Returns (inr V') <->
  exists delta, sweep policy environment discount_factor V
                = Returns (V', delta) /\ delta < theta.
Proof.
  unfold evaluation_round.
  destruct (sweep policy environment discount_factor V) as [[V1 d]| |];
    simpl; try (split; [discriminate | intros (? & ? & _); discriminate]).
  destruct (Qlt_bool d theta) eqn:E.
  - apply Qlt_bool_iff in E. split.
    + intros [= ->]. eauto.
    + intros (d' & [= -> ->] & _). reflexivity.
  - apply Qlt_bool_false_iff in E. split; [discriminate|].
    intros (d' & [= -> ->] & Hlt). exfalso. exact (Qlt_not_le _ _ Hlt E).
Qed.

Lemma evaluation_round_inl policy environment discount_factor theta V V' :
  evaluation_round policy environment discount_factor theta V
    = Returns (inl V') <->
  exists delta, sweep policy environment discount_factor V
                = Returns (V', delta) /\ theta <= delta.
Proof.
  unfold evaluation_round.
  destruct (sweep policy environment discount_factor V) as [[V1 d]| |];
    simpl; try (split; [discriminate | intros (? & ? & _); discriminate]).
  destruct (Qlt_bool d theta) eqn:E.
  - apply Qlt_bool_iff in E. split; [discriminate|].
    intros (d' & [= -> ->] & Hle). exfalso. exact (Qlt_not_le _ _ E Hle).
  - apply Qlt_bool_false_iff in E. split.
    + intros [= ->]. eauto.
    + intros (d' & [= -> ->] & _). reflexivity.
Qed.

Lemma evaluation_round_raises policy environment discount_factor theta V e :
  evaluation_round policy environment discount_factor theta V = Raises e ->
  lookup_error e.
Proof.
  unfold evaluation_round. intros H. split_bind H.
  - eauto using sweep_raises.
  - destruct a as [V1 d]. destruct (Qlt_bool d theta); discriminate.
Qed.

(** C2 (as amended): [policy_evaluation] returns the value function of
    the first sweep, among at most [max_iterations], whose largest
    change [delta] is below [theta]; when every one of the
    [max_iterations] sweeps ends with [theta <= delta] it returns
    [None]: running out of budget is not an exception.  The only
    exceptions it raises are failed lookups, and it always finishes. *)
Theorem policy_evaluation_outcome
    (policy : policy_t) (environment : environment)
    (discount_factor theta : Q) (max_iterations : nat) :
  let round := evaluation_round policy environment discount_factor theta in
  let run := policy_evaluation policy environment discount_factor theta
               max_iterations in
  (forall V', run = Returns (Some V') <->
     exists k V delta,
       (k < max_iterations)%nat
       /\ after_passes k round (zeros (nS environment)) = Some V
       /\ sweep policy environment discount_factor V = Returns (V', delta)
       /\ delta < theta)
  /\ (run = Returns None <->
      exists V, after_passes max_iterations round (zeros (nS environment))
                = Some V)
  /\ (forall k V',
        after_passes (S k) round (zeros (nS environment)) = Some V' <->
        exists V delta,
          after_passes k round (zeros (nS environment)) = Some V
          /\ sweep policy environment discount_factor V = Returns (V', delta)
          /\ theta <= delta)
  /\ (forall e, run = Raises e -> lookup_error e)
  /\ run <> Blocked.
Proof.
  intros round run. unfold run, policy_evaluation. fold round.
  repeat split.
  - intros H. apply for_range_return_some in H as (k & V & Hk & Hp & Hb).
    apply evaluation_round_inr in Hb as (delta & Hs & Hlt).
    exists k, V, delta. auto.
  - intros (k & V & delta & Hk & Hp & Hs & Hlt).
    apply for_range_return_some. exists k, V. repeat split; [done..|].
    apply evaluation_round_inr. eauto.
  - apply for_range_return_none.
  - apply for_range_return_none.
  - intros H. apply after_passes_succ in H as (V & Hp & Hb).
    apply evaluation_round_inl in Hb as (delta & Hs & Hle). eauto.
  - intros (V & delta & Hp & Hs & Hle). apply after_passes_succ.
    exists V. split; [done|]. apply evaluation_round_inl. eauto.
  - intros e H. apply for_range_return_raises in H as (k & V & _ & _ & Hb).
    eauto using evaluation_round_raises.
  - apply for_range_return_blocked. intros V H. unfold round in H.
    unfold evaluation_round in H. split_bind H.
    + by apply sweep_not_blocked in H.
    + destruct a as [V1 d]. destruct (Qlt_bool d theta); discriminate.
Qed.

(** C2 (counterexample): on the one-state table whose move pays 1, three
    sweeps each change the value by 1, and with the budget spent the
    call returns [None]; nothing is raised. *)
Lemma policy_evaluation_budget_returns_none :
  valid_table terminal_loop = true
  /\ sweep [[1]] terminal_loop 1 [0] = Returns ([1], 1)
  /\ policy_evaluation [[1]] terminal_loop 1 default_theta 3 = Returns None.
Proof. repeat split; vm_compute; reflexivity. Qed.


Lemma compared_actions_row environment V discount_factor policy policy' state :
  policy !! state = policy' !! state ->
  compared_actions environment V discount_factor policy state
  = compared_actions environment V discount_factor policy' state.
Proof. unfold compared_actions, subscript. by intros ->. Qed.

Lemma improve_state_cases environment V discount_factor policy b state
    policy1 b1 :
  improve_state environment V discount_factor (policy, b) state
    = Returns (policy1, b1) ->
  exists current_action best_action,
    compared_actions environment V discount_factor policy state
      = Returns (current_action, best_action)
    /\ ((current_action = best_action /\ policy1 = policy /\ b1 = b)
        \/ (current_action <> best_action /\ b1 = false
            /\ exists e, policy1 = <[state := e]> policy)).
Proof.
  unfold improve_state, compared_actions. intros H.
  split_bind H. rename a into row. rewrite Hstep. clear Hstep.
  split_bind H. rename a into cur. simpl. rewrite Hstep. clear Hstep.
  split_bind H. rename a into av. simpl. rewrite Hstep. clear Hstep.
  split_bind H. rename a into best. simpl. rewrite Hstep. clear Hstep.
  simpl. exists cur, best. split; [done|].
  destruct (Nat.eqb_spec cur best) as [->|Hne].
  - left. by injection H as <- <-.
  - right. split_bind H. injection H as <- <-. eauto.
Qed.

Lemma improve_loop environment V discount_factor policy n :
  forall a current b policy' b',
    (forall j, (a <= j)%nat -> current !! j = policy !! j) ->
    for_each (seq a n) (improve_state environment V discount_factor)
      (current, b) = Returns (policy', b') ->
    (b' = true ->
       b = true /\ policy' = current
       /\ forall state, (a <= state < a + n)%nat ->
            exists x, compared_actions environment V discount_factor
                        policy state = Returns (x, x))
    /\ (b' = false ->
          b = false
          \/ exists state current_action best_action,
               (a <= state < a + n)%nat
               /\ compared_actions environment V discount_factor policy state
                  = Returns (current_action, best_action)
               /\ current_action <> best_action).
Proof.
  induction n as [|n IH]; intros a current b policy' b' Hrows Hrun.
  - simpl in Hrun. injection Hrun as <- <-.
    split; [intros ->; repeat split; intros; lia | auto].
  - simpl in Hrun. split_bind Hrun. destruct a0 as [policy1 b1].
    apply improve_state_cases in Hstep as (cur & best & Hcmp & Hcase).
    rewrite (compared_actions_row _ _ _ current policy) in Hcmp
      by (apply Hrows; lia).
    assert (Hrows1 : forall j, (S a <= j)%nat -> policy1 !! j = policy !! j).
    { intros j Hj. destruct Hcase as [(_ & -> & _)|(_ & _ & e & ->)].
      - apply Hrows. lia.
      - rewrite list_lookup_insert_ne by lia. apply Hrows. lia. }
    destruct (IH _ _ _ _ _ Hrows1 Hrun) as [Htrue Hfalse].
    split.
    + intros ->. destruct Htrue as (-> & -> & Hall); [done|].
      destruct Hcase as [(-> & -> & ->)|(_ & [=] & _)].
      repeat split. intros state Hstate.
      destruct (decide (state = a)) as [->|Hne]; [eauto|].
      apply Hall. lia.
    + intros ->. destruct Hfalse as [->|(state & c & d & Hs & Hc & Hd)];
        [done| |].
      * destruct Hcase as [(-> & -> & ->)|(Hne & _ & _)]; [by left|].
        right. exists a, cur, best. repeat split; [lia..|done|done].
      * right. exists state, c, d. repeat split; [lia..|done|done].
Qed.

(** A pass of the improvement loop that leaves the function found, in
    every state, the greedy action equal to the current one, and
    returns the policy it was given with the value function just
    evaluated. *)
Lemma improvement_round_stable environment discount_factor policy policy' V :
  improvement_round environment discount_factor policy
    = Returns (inr (policy', V)) ->
  policy' = policy
  /\ policy_evaluation policy environment discount_factor
       default_theta default_max_iterations = Returns V
  /\ forall state, (state < nS environment)%nat ->
       exists x, compared_actions environment V discount_factor policy state
                 = Returns (x, x).
Proof.
  unfold improvement_round. intros H.
  split_bind H. rename a into V0. split_bind H. destruct a as [p1 b1].
  destruct b1; [|discriminate]. injection H as <- <-.
  eapply improve_loop in Hstep0 as [Htrue _]; [|done].
  destruct Htrue as (_ & -> & Hall); [done|].
  repeat split; [done|]. intros state Hs. apply Hall. lia.
Qed.

(** A pass that goes round again found a state whose greedy action
    differs from the current one. *)
Lemma improvement_round_changes environment discount_factor policy policy' :
  improvement_round environment discount_factor policy
    = Returns (inl policy') ->
  exists V state current_action best_action,
    policy_evaluation policy environment discount_factor
      default_theta default_max_iterations = Returns V
    /\ (state < nS environment)%nat
    /\ compared_actions environment V discount_factor policy state
       = Returns (current_action, best_action)
    /\ current_action <> best_action.
Proof.
  unfold improvement_round. intros H.
  split_bind H. rename a into V0. split_bind H. destruct a as [p1 b1].
  destruct b1; [discriminate|]. injection H as <-.
  eapply improve_loop in Hstep0 as [_ Hfalse]; [|done].
  destruct Hfalse as [|(state & c & d & Hs & Hc & Hd)]; [done..|].
  exists V0, state, c, d. repeat split; [done|lia|done|done].
Qed.

(** C7 (as amended): [policy_iteration] makes at most [max_iterations]
    improvement rounds.  It returns at the first round, among those,
    that finds the policy stable, with that policy and the value
    function evaluated for it; every earlier round changed the action
    of some state; when all [max_iterations] rounds changed one it
    returns [None]. *)
Theorem policy_iteration_rounds
    (environment : environment) (discount_factor : Q) (max_iterations : nat) :
  let round := improvement_round environment discount_factor in
  let run := policy_iteration environment discount_factor max_iterations in
  (forall policy V, run = Returns (Some (policy, V)) <->
     exists k,
       (k < max_iterations)%nat
       /\ after_passes k round (uniform_policy environment) = Some policy
       /\ round policy = Returns (inr (policy, V)))
  /\ (run = Returns None <->
      exists policy,
        after_passes max_iterations round (uniform_policy environment)
        = Some policy)
  /\ (forall policy policy' V,
        round policy = Returns (inr (policy', V)) ->
        policy' = policy
        /\ policy_evaluation policy environment discount_factor
             default_theta default_max_iterations = Returns V
        /\ forall state, (state < nS environment)%nat ->
             exists x, compared_actions environment V discount_factor
                         policy state = Returns (x, x))
  /\ (forall policy policy',
        round policy = Returns (inl policy') ->
        exists V state current_action best_action,
          policy_evaluation policy environment discount_factor
            default_theta default_max_iterations = Returns V
          /\ (state < nS environment)%nat
          /\ compared_actions environment V discount_factor policy state
             = Returns (current_action, best_action)
          /\ current_action <> best_action).
Proof.
  intros round run. unfold run, policy_iteration. fold round.
  split; [|split; [|split]].
  - intros policy V. split.
    + intros H. apply for_range_return_some in H as (k & p & Hk & Hp & Hb).
      pose proof (improvement_round_stable _ _ _ _ _ Hb) as (-> & _).
      eauto.
    + intros (k & Hk & Hp & Hb). apply for_range_return_some. eauto.
  - apply for_range_return_none.
  - apply improvement_round_stable.
  - apply improvement_round_changes.
Qed.

Lemma policy_evaluation_outcome_witness :
  (exists k V delta,
     (k < 5)%nat
     /\ after_passes k
          (evaluation_round (uniform_policy two_armed) two_armed 1
             default_theta)
          (zeros (nS two_armed)) = Some V
     /\ sweep (uniform_policy two_armed) two_armed 1 V
        = Returns (two_armed_value, delta)
     /\ delta < default_theta)
  /\ policy_evaluation (uniform_policy two_armed) two_armed 1 default_theta 5
     = Returns (Some two_armed_value).
Proof.
  assert (H : exists k V delta,
     (k < 5)%nat
     /\ after_passes k
          (evaluation_round (uniform_policy two_armed) two_armed 1
             default_theta)
          (zeros (nS two_armed)) = Some V
     /\ sweep (uniform_policy two_armed) two_armed 1 V
        = Returns (two_armed_value, delta)
     /\ delta < default_theta).
  { exists 1%nat, [2 # 4; 0 # 4], 0.
    split; [lia|]. split; [vm_compute; reflexivity|].
    split; [vm_compute; reflexivity | reflexivity]. }
  split; [exact H|].
  exact (proj2 (proj1 (policy_evaluation_outcome (uniform_policy two_armed)
                         two_armed 1 default_theta 5) two_armed_value) H).
Defined.

Lemma policy_iteration_rounds_witness :
  (exists k,
     (k < 5)%nat
     /\ after_passes k (improvement_round two_armed 1)
          (uniform_policy two_armed) = Some (fst two_armed_solution)
     /\ improvement_round two_armed 1 (fst two_armed_solution)
        = Returns (inr (fst two_armed_solution, snd two_armed_solution)))
  /\ policy_iteration two_armed 1 5
     = Returns (Some (fst two_armed_solution, snd two_armed_solution)).
Proof.
  assert (H : exists k,
     (k < 5)%nat
     /\ after_passes k (improvement_round two_armed 1)
          (uniform_policy two_armed) = Some (fst two_armed_solution)
     /\ improvement_round two_armed 1 (fst two_armed_solution)
        = Returns (inr (fst two_armed_solution, snd two_armed_solution))).
  { exists 1%nat. split; [lia|]. split; lazy; reflexivity. }
  split; [exact H|].
  exact (proj2 (proj1 (policy_iteration_rounds two_armed 1 5)
                  (fst two_armed_solution) (snd two_armed_solution)) H).
Defined.

(** On the one-state table whose move pays 1 and ends the episode,
    every sweep raises the value by 1, so no budget is enough. *)
Lemma terminal_loop_round (q : Q) :
  evaluation_round [[1]] terminal_loop 1 default_theta [q]
  = Returns (inl [0 + 1 * 1 * (1 + 1 * q)]).
Proof.
  unfold evaluation_round, sweep.
  cbn -[Qplus Qmult Qminus Qabs pymax Qlt_bool default_theta].
  set (v := 0 + 1 * 1 * (1 + 1 * q)).
  assert (Hd : Qabs (q - v) == 1).
  { assert (E : q - v == - (1)) by (unfold v; ring).
    rewrite E. reflexivity. }
  assert (Hm : pymax 0 (Qabs (q - v)) == 1).
  { unfold pymax.
    destruct (Qlt_bool 0 (Qabs (q - v))) eqn:E; [done|].
    apply Qlt_bool_false_iff in E. rewrite Hd in E.
    exfalso. exact (Qlt_not_le 0 1 eq_refl E). }
  assert (Hge : Qlt_bool (pymax 0 (Qabs (q - v))) default_theta = false).
  { apply Qlt_bool_false_iff. rewrite Hm. by vm_compute. }
  by rewrite Hge.
Qed.

Lemma terminal_loop_never_converges (n : nat) (q : Q) :
  for_range_return n (evaluation_round [[1]] terminal_loop 1 default_theta) [q]
  = Returns None.
Proof.
  revert q. induction n as [|n IH]; intros q; [done|].
  simpl. rewrite terminal_loop_round. apply IH.
Qed.

Lemma terminal_loop_first_round :
  improvement_round terminal_loop 1 (uniform_policy terminal_loop)
  = Raises TypeError.
Proof.
  unfold improvement_round.
  replace (uniform_policy terminal_loop) with [[1]] by (vm_compute; done).
  unfold policy_evaluation.
  change (zeros (nS terminal_loop)) with [0].
  rewrite terminal_loop_never_converges. vm_compute. reflexivity.
Qed.

Lemma policy_iteration_terminal_loop (n : nat) :
  policy_iteration terminal_loop 1 (S n) = Raises TypeError.
Proof.
  unfold policy_iteration.
  by rewrite for_range_return_succ, terminal_loop_first_round.
Qed.

(** C7 (counterexample): a valid table with one state and one action, a
    discount factor of 1 and a budget of one round (state count times
    action count): the evaluation of the first round never converges and
    the call ends in a [TypeError], with no policy and no value function
    returned.  The same happens with the default budget. *)
Lemma policy_iteration_no_result :
  valid_table terminal_loop = true
  /\ (nS terminal_loop * nA terminal_loop = 1)%nat
  /\ policy_iteration terminal_loop 1 1 = Raises TypeError
  /\ policy_iteration terminal_loop 1 default_max_iterations
     = Raises TypeError.
Proof.
  split; [reflexivity|]. split; [reflexivity|]. split.
  - apply policy_iteration_terminal_loop.
  - replace default_max_iterations with (S (pred default_max_iterations))
      by (unfold default_max_iterations; lia).
    apply policy_iteration_terminal_loop.
Qed.

End PolicyIterationFacts.

(** ** The end-of-episode update *)

Section Pointwise.

(** A loop whose passes each rewrite the entries of their own keys, by
    a function of the key and the old entry, rewrites exactly the
    entries of the keys of its passes. *)

Context {S X Key V : Type}.
Context (get : S -> Key -> option V) (body : S -> X -> outcome S).
Context (touches : X -> Key -> Prop) (f : Key -> V -> V) (good : Key -> Prop).

Hypothesis body_touched : forall s x s' k,
  body s x = Returns s' -> touches x k ->
  get s' k = f k <$> get s k /\ good k.
Hypothesis body_others : forall s x s' k,
  body s x = Returns s' -> ~ touches x k -> get s' k = get s k.

Lemma for_each_others (xs : list X) :
  forall s s' k,
    for_each xs body s = Returns s' ->
    (forall x, In x xs -> ~ touches x k) -> get s' k = get s k.
Proof.
  induction xs as [|x xs IH]; simpl; intros s s' k Hrun Hno.
  - by injection Hrun as ->.
  - apply obind_returns in Hrun as (s1 & H1 & H2).
    rewrite (IH _ _ _ H2) by eauto. eauto.
Qed.

Lemma for_each_touched (xs : list X) :
  apart touches xs ->
  forall s s' k x,
    for_each xs body s = Returns s' -> In x xs -> touches x k ->
    get s' k = f k <$> get s k /\ good k.
Proof.
  induction xs as [|y xs IH]; simpl; intros Hap s s' k x Hrun Hin Hk;
    [done|].
  destruct Hap as [Hfirst Hap].
  apply obind_returns in Hrun as (s1 & H1 & H2).
  destruct Hin as [->|Hin].
  - rewrite (for_each_others _ _ _ _ H2) by eauto. eauto.
  - destruct (IH Hap _ _ _ _ H2 Hin Hk) as [-> Hgood].
    split; [|done]. f_equal. eapply body_others; [done|].
    intros Hy. exact (Hfirst _ _ Hy Hin Hk).
Qed.

End Pointwise.

Lemma apart_seq {Key} (touches : nat -> Key -> Prop) (a n : nat) :
  (forall x y k, touches x k -> touches y k -> x = y) ->
  apart touches (seq a n).
Proof.
  intros Hinj. revert a. induction n as [|n IH]; intros a; simpl; [done|].
  split; [|apply IH].
  intros k y Ha Hin Hy. apply in_seq in Hin.
  pose proof (Hinj _ _ _ Ha Hy). lia.
Qed.

Module UpdateFacts.

Import MonteCarlo.
Local Open Scope outcome_scope.

Lemma subscript_returns {A} (l : list A) (i : nat) (x : A) :
  subscript l i = Returns x <-> l !! i = Some x.
Proof. unfold subscript. destruct (l !! i); split; congruence. Qed.

Lemma slot_insert {A} (m : list (list A)) (i j : nat) (row : list A) (x y : A) :
  m !! i = Some row -> row !! j = Some x ->
  forall i' j',
    slot (<[i := <[j := y]> row]> m) i' j'
    = if decide (i' = i /\ j' = j) then Some y else slot m i' j'.
Proof.
  intros Hrow Hx i' j'. unfold slot.
  pose proof (lookup_lt_Some _ _ _ Hrow) as Hi.
  pose proof (lookup_lt_Some _ _ _ Hx) as Hj.
  destruct (decide (i' = i)) as [->|Hne].
  - rewrite list_lookup_insert_eq by done. rewrite Hrow.
    destruct (decide (j' = j)) as [->|Hnej].
    + rewrite list_lookup_insert_eq by done.
      by rewrite decide_True.
    + rewrite list_lookup_insert_ne by done.
      rewrite decide_False; [done | intros [_ ?]; done].
  - rewrite list_lookup_insert_ne by done.
    rewrite decide_False; [done | intros [? _]; done].
Qed.

Lemma dims_insert {A} (m : list (list A)) (i j : nat) (row : list A) (y : A) :
  m !! i = Some row ->
  map length (<[i := <[j := y]> row]> m) = map length m.
Proof.
  intros Hrow. rewrite list_fmap_insert, length_insert.
  apply list_insert_id. by rewrite list_lookup_fmap, Hrow.
Qed.

Lemma update_slot_touched occ rew i m j m' k :
  update_slot occ rew i m j = Returns m' ->
  k = (i, j) ->
  slot_at m' k = updated occ rew k <$> slot_at m k /\ counted occ k.
Proof.
  unfold update_slot. intros H ->.
  apply obind_returns in H as (orow & Ho1 & H).
  apply obind_returns in H as (o & Ho2 & H).
  apply subscript_returns in Ho1, Ho2.
  assert (Hocc : slot occ i j = Some o) by (unfold slot; by rewrite Ho1).
  split; [|by unfold counted; simpl; rewrite Hocc].
  unfold slot_at, updated. simpl. rewrite Hocc.
  destruct (Qle_bool 1 o).
  - apply obind_returns in H as (row & Hr & H).
    apply obind_returns in H as (c & Hc & H).
    apply subscript_returns in Hr, Hc. injection H as <-.
    rewrite (slot_insert _ _ _ _ c) by done.
    rewrite decide_True by done.
    unfold slot. by rewrite Hr, Hc.
  - injection H as <-. by destruct (slot m i j).
Qed.

Lemma update_slot_others occ rew i m j m' k :
  update_slot occ rew i m j = Returns m' ->
  k <> (i, j) -> slot_at m' k = slot_at m k.
Proof.
  unfold update_slot. intros H Hk.
  apply obind_returns in H as (orow & Ho1 & H).
  apply obind_returns in H as (o & Ho2 & H).
  destruct (Qle_bool 1 o); [|by injection H as <-].
  apply obind_returns in H as (row & Hr & H).
  apply obind_returns in H as (c & Hc & H).
  apply subscript_returns in Hr, Hc. injection H as <-.
  unfold slot_at. rewrite (slot_insert _ _ _ _ c) by done.
  rewrite decide_False; [done|].
  intros [? ?]. apply Hk. destruct k; simpl in *; congruence.
Qed.

Lemma update_slot_dims occ rew i m j m' :
  update_slot occ rew i m j = Returns m' -> map length m' = map length m.
Proof.
  unfold update_slot. intros H.
  apply obind_returns in H as (orow & Ho1 & H).
  apply obind_returns in H as (o & Ho2 & H).
  destruct (Qle_bool 1 o); [|by injection H as <-].
  apply obind_returns in H as (row & Hr & H).
  apply obind_returns in H as (c & Hc & H).
  apply subscript_returns in Hr. injection H as <-.
  by apply dims_insert.
Qed.

(** The inner loop, over the columns of row [i]. *)
Lemma update_row_touched occ rew i cols m m' k :
  for_each (seq 0 cols) (update_slot occ rew i) m = Returns m' ->
  fst k = i -> (snd k < cols)%nat ->
  slot_at m' k = updated occ rew k <$> slot_at m k /\ counted occ k.
Proof.
  intros Hrun Hi Hj.
  eapply (for_each_touched slot_at (update_slot occ rew i)
            (fun j k => k = (i, j)) (updated occ rew) (counted occ)
            (fun s x s' k => update_slot_touched occ rew i s x s' k)
            (fun s x s' k => update_slot_others occ rew i s x s' k)
            (seq 0 cols)) with (x := snd k); [|done| |].
  - apply apart_seq. congruence.
  - apply in_seq. lia.
  - destruct k; simpl in *; congruence.
Qed.

Lemma update_row_others occ rew i cols m m' k :
  for_each (seq 0 cols) (update_slot occ rew i) m = Returns m' ->
  ~ (fst k = i /\ (snd k < cols)%nat) ->
  slot_at m' k = slot_at m k.
Proof.
  intros Hrun Hk.
  eapply (for_each_others slot_at (update_slot occ rew i)
            (fun j k => k = (i, j))
            (fun s x s' k => update_slot_others occ rew i s x s' k));
    [done|].
  intros j Hin ->. apply in_seq in Hin. simpl in Hk. apply Hk. lia.
Qed.

(** The nested loops. *)
Lemma update_values_touched occ rew m m' i j :
  update_values occ rew m = Returns m' ->
  (i < shape0 m)%nat -> (j < shape1 m)%nat ->
  slot m' i j = updated occ rew (i, j) <$> slot m i j
  /\ is_Some (slot occ i j).
Proof.
  unfold update_values. intros Hrun Hi Hj.
  change (slot m' i j) with (slot_at m' (i, j)).
  change (slot m i j) with (slot_at m (i, j)).
  change (is_Some (slot occ i j)) with (counted occ (i, j)).
  eapply (for_each_touched slot_at
            (fun s i => for_each (seq 0 (shape1 m)) (update_slot occ rew i) s)
            (fun i k => fst k = i /\ (snd k < shape1 m)%nat)
            (updated occ rew) (counted occ)) with (x := i);
    [| | |exact Hrun| |].
  - intros s x s' k H [Hx Hlt]. eapply update_row_touched; eauto.
  - intros s x s' k H Hno. eapply update_row_others; eauto.
  - apply apart_seq. intros x y k [<- _] [<- _]. done.
  - apply in_seq. lia.
  - done.
Qed.

End UpdateFacts.

(** ** Running an episode *)

Module EpisodeFacts.

Import MonteCarlo UpdateFacts.

Section WithKernel.

Context `{K : Kernel}.

Local Open Scope M_scope.

Lemma bind_run {A B} (m : M A) (k : A -> M B) (w : world)
    (r : outcome B * world) :
  bind m k w = r ->
  (exists a w1, m w = (Returns a, w1) /\ k a w1 = r)
  \/ (exists e w1, m w = (Raises e, w1) /\ r = (Raises e, w1))
  \/ (exists w1, m w = (Blocked, w1) /\ r = (Blocked, w1)).
Proof.
  unfold bind. destruct (m w) as [[a|e|] w1]; intros <-; eauto 6.
Qed.

Lemma bind_returns {A B} (m : M A) (k : A -> M B) (w w' : world) (b : B) :
  bind m k w = (Returns b, w') ->
  exists a w1, m w = (Returns a, w1) /\ k a w1 = (Returns b, w').
Proof.
  intros H. apply bind_run in H as [H|[(e & w1 & _ & H)|(w1 & _ & H)]];
    [done|discriminate..].
Qed.

Lemma appends_bind {A B} P (m : M A) (k : A -> M B) :
  additive P -> appends P m -> (forall a, appends P (k a)) ->
  appends P (bind m k).
Proof.
  intros [Hnil Happ] Hm Hk w o w' Hrun.
  apply bind_run in Hrun
    as [(a & w1 & H1 & H2)|[(e & w1 & H1 & [= -> ->])|(w1 & H1 & [= -> ->])]];
    eauto.
  destruct (Hm _ _ _ H1) as (e1 & E1 & P1).
  destruct (Hk _ _ _ _ H2) as (e2 & E2 & P2).
  exists (e1 ++ e2). rewrite E2, E1, app_assoc. auto.
Qed.

Lemma appends_ret {A} P (a : A) : additive P -> appends P (ret a).
Proof.
  intros [Hnil _] w o w' [= <- <-]. exists []. by rewrite app_nil_r.
Qed.

Lemma appends_lift {A} P (o : outcome A) : additive P -> appends P (lift o).
Proof.
  intros [Hnil _] w o' w' [= <- <-]. exists []. by rewrite app_nil_r.
Qed.

Lemma appends_weaken {A} (P Q : list event -> Prop) (m : M A) :
  (forall evs, P evs -> Q evs) -> appends P m -> appends Q m.
Proof.
  intros HPQ Hm w o w' Hrun. destruct (Hm _ _ _ Hrun) as (evs & E & HP).
  eauto.
Qed.

Lemma additive_silent : additive silent.
Proof. split; [done|]. by intros a b -> ->. Qed.

Lemma additive_steps : additive (Forall is_step).
Proof. split; [constructor|]. intros a b Ha Hb. by apply Forall_app. Qed.

Lemma silent_steps evs : silent evs -> Forall is_step evs.
Proof. intros ->. constructor. Qed.

Lemma uniform_silent : appends silent np_random_uniform.
Proof.
  intros w o w'. unfold np_random_uniform.
  destruct (w_rng w) as [|[u|k] rest]; intros [= <- <-];
    exists []; by rewrite app_nil_r.
Qed.

Lemma choice_silent a p : appends silent (np_random_choice a p).
Proof.
  intros w o w'. unfold np_random_choice.
  destruct (negb _); [intros [= <- <-]; exists []; by rewrite app_nil_r|].
  destruct (w_rng w) as [|[u|k] rest];
    try (intros [= <- <-]; exists []; by rewrite app_nil_r).
  destruct (a !! k); intros [= <- <-]; exists []; by rewrite app_nil_r.
Qed.

Lemma random_choice_silent rpm s : appends silent (random_choice rpm s).
Proof.
  unfold random_choice.
  apply appends_bind; auto using additive_silent, @appends_lift, choice_silent.
Qed.

Lemma tiny_epsilon_silent m s rpm eps :
  appends silent (tiny_epsilon_choice m s rpm eps).
Proof.
  unfold tiny_epsilon_choice.
  apply appends_bind; auto using additive_silent, uniform_silent.
  intros u. destruct (Qle_bool eps u);
    auto using additive_silent, @appends_lift, random_choice_silent.
Qed.

Lemma choose_action_silent m p eps l :
  appends silent (choose_action m p eps l).
Proof.
  unfold choose_action.
  repeat match goal with
         | |- appends _ (if ?b then _ else _) => destruct b
         | |- appends _ (bind _ _) =>
             apply appends_bind; [apply additive_silent| |intros ?]
         | |- appends _ (ret _) => apply appends_ret, additive_silent
         | |- appends _ (lift _) => apply appends_lift, additive_silent
         | |- _ => first [apply random_choice_silent
                         |apply tiny_epsilon_silent
                         |apply choice_silent]
         end.
Qed.

Lemma read_local_silent {A} (x : option A) : appends silent (read_local x).
Proof.
  destruct x; [apply appends_ret | apply appends_lift]; apply additive_silent.
Qed.

Lemma step_env_run a w o w' :
  step_env a w = (o, w') ->
  exists s' r d,
    o = Returns (s', r, d)
    /\ w_events w' = w_events w ++ [EvStep a s' r d]
    /\ w_rng w' = w_rng w.
Proof.
  unfold step_env. destruct (env_step (w_env w) a) as [e' [[s' r] d]].
  intros [= <- <-]. by exists s', r, d.
Qed.

Lemma loop_body_steps m p eps l : appends (Forall is_step) (loop_body m p eps l).
Proof.
  unfold loop_body.
  apply appends_bind; [apply additive_steps| |intros act].
  { eapply appends_weaken; [apply silent_steps | apply choose_action_silent]. }
  apply appends_bind; [apply additive_steps| |intros a].
  { eapply appends_weaken; [apply silent_steps | apply read_local_silent]. }
  apply appends_bind; [apply additive_steps| |intros occ].
  { apply appends_lift, additive_steps. }
  apply appends_bind; [apply additive_steps| |intros [[s' r] d]].
  - intros w o w' H. apply step_env_run in H as (s' & r & d & _ & E & _).
    eexists. split; [exact E|]. by repeat constructor.
  - apply appends_ret, additive_steps.
Qed.

Lemma while_steps fuel m p eps :
  forall l, appends (Forall is_step) (while_not_done fuel m p eps l).
Proof.
  induction fuel as [|fuel IH]; intros l; simpl.
  - destruct (done l); [apply appends_ret | apply appends_lift];
      apply additive_steps.
  - destruct (done l); [apply appends_ret, additive_steps|].
    apply appends_bind; auto using additive_steps, loop_body_steps.
Qed.

(** A pass of the loop that finishes: the action played, what the
    environment answered, and the locals afterwards. *)
Lemma loop_body_returns m p eps l w l' w' :
  loop_body m p eps l w = (Returns l', w') ->
  exists a s' r d occ',
    bump (sa_occurence_matrix l) (state l) a = Returns occ'
    /\ l' = Locals occ' d s' (pymax (rew l) r) (S (step_count l)) (Some a)
    /\ w_events w' = w_events w ++ [EvStep a s' r d].
Proof.
  unfold loop_body. intros H.
  apply bind_returns in H as (act & w1 & H1 & H).
  apply bind_returns in H as (a & w2 & H2 & H).
  apply bind_returns in H as (occ' & w3 & H3 & H).
  apply bind_returns in H as ([[s' r] d] & w4 & H4 & H).
  injection H as <- <-.
  destruct (choose_action_silent _ _ _ _ _ _ _ H1) as (e1 & E1 & ->).
  destruct (read_local_silent _ _ _ _ H2) as (e2 & E2 & ->).
  injection H3 as Hb <-.
  apply step_env_run in H4 as (s1 & r1 & d1 & [= <- <- <-] & E4 & _).
  destruct act as [a'|]; simpl in H2; [|discriminate].
  injection H2 as <- <-.
  exists a', s', r, d, occ'. repeat split; [done|].
  rewrite E4, E1. by rewrite app_nil_r.
Qed.

(** *** The bound on the passes of the loop

    A pass that finishes has taken a draw, so a loop given more passes
    than there are draws behaves as one given any larger number: the
    bound of [one_iteration] cuts no run short. *)

Lemma uniform_takes w u w' :
  np_random_uniform w = (Returns u, w') ->
  (length (w_rng w') < length (w_rng w))%nat.
Proof.
  unfold np_random_uniform.
  destruct (w_rng w) as [|[x|k] rest]; intros [= <- <-]; simpl; lia.
Qed.

Lemma choice_takes a p w x w' :
  np_random_choice a p w = (Returns x, w') ->
  (length (w_rng w') < length (w_rng w))%nat.
Proof.
  unfold np_random_choice. destruct (negb _); [discriminate|].
  destruct (w_rng w) as [|[u|k] rest]; try discriminate.
  destruct (a !! k); intros [= <- <-]; simpl; lia.
Qed.

Lemma random_choice_takes rpm s w x w' :
  random_choice rpm s w = (Returns x, w') ->
  (length (w_rng w') < length (w_rng w))%nat.
Proof.
  unfold random_choice. intros H.
  apply bind_returns in H as (row & w1 & [= _ <-] & H).
  by apply choice_takes in H.
Qed.

Lemma tiny_epsilon_takes m s rpm eps w x w' :
  tiny_epsilon_choice m s rpm eps w = (Returns x, w') ->
  (length (w_rng w') < length (w_rng w))%nat.
Proof.
  unfold tiny_epsilon_choice. intros H.
  apply bind_returns in H as (u & w1 & Hu & H). apply uniform_takes in Hu.
  destruct (Qle_bool eps u).
  - injection H as _ <-. done.
  - apply random_choice_takes in H. lia.
Qed.

Lemma loop_body_takes m p eps l w l' w' :
  recognised p = true \/ action l = None ->
  loop_body m p eps l w = (Returns l', w') ->
  recognised p = true /\ (length (w_rng w') < length (w_rng w))%nat.
Proof.
  unfold loop_body, recognised. intros Hinv H.
  apply bind_returns in H as (act & w1 & H1 & H).
  apply bind_returns in H as (a & w2 & H2 & H).
  apply bind_returns in H as (occ' & w3 & [= _ <-] & H).
  apply bind_returns in H as ([[s' r] d] & w4 & H4 & [= _ <-]).
  apply step_env_run in H4 as (s1 & r1 & d1 & _ & _ & ->).
  destruct act as [a'|]; simpl in H2; [|discriminate].
  injection H2 as _ <-.
  unfold choose_action in H1.
  destruct (String.eqb p "random").
  { split; [done|].
    apply bind_returns in H1 as (x & w5 & Hx & [= _ <-]).
    by apply random_choice_takes in Hx. }
  destruct (String.eqb p "tiny_epsilon").
  { split; [done|].
    apply bind_returns in H1 as (x & w5 & Hx & [= _ <-]).
    by apply tiny_epsilon_takes in Hx. }
  destruct (String.eqb p "softmax").
  { split; [done|].
    apply bind_returns in H1 as (row & w5 & [= _ <-] & H1).
    apply bind_returns in H1 as (x & w6 & Hx & [= _ <-]).
    by apply choice_takes in Hx. }
  injection H1 as Hact _. destruct Hinv as [|Hnone]; [done|].
  congruence.
Qed.

Lemma while_fuel m p eps :
  forall fuel1 fuel2 l w,
    (length (w_rng w) < fuel1)%nat -> (length (w_rng w) < fuel2)%nat ->
    recognised p = true \/ action l = None ->
    while_not_done fuel1 m p eps l w = while_not_done fuel2 m p eps l w.
Proof.
  induction fuel1 as [|fuel1 IH]; intros fuel2 l w H1 H2 Hinv; [lia|].
  destruct fuel2 as [|fuel2]; [lia|]. simpl.
  destruct (done l); [done|]. unfold bind.
  destruct (loop_body m p eps l w) as [[l'| |] w'] eqn:E; [|done..].
  apply loop_body_takes in E as [Hrec Hlt]; [|done].
  apply IH; [lia | lia | by left].
Qed.

(** [one_iteration] with any larger bound on the passes of its loop. *)
Lemma one_iteration_fuel m p eps fuel w :
  (length (w_rng w) < fuel)%nat ->
  one_iteration m p eps w
  = (_ ← emit (EvEpisode p eps);
     l ← init_env;
     l ← while_not_done fuel m p eps l;
     sa_valmat' ← lift (update_values (sa_occurence_matrix l) (rew l) m);
     ret (sa_valmat', rew l, step_count l)) w.
Proof.
  intros Hfuel. unfold one_iteration, bind, emit, init_env, bind, reset_env, ret.
  cbn [w_env w_rng w_events].
  rewrite (while_fuel m p eps (S (length (w_rng w))) fuel); [done|..].
  - simpl. lia.
  - done.
  - by right.
Qed.

Lemma of_count_succ (n : nat) : of_count n + 1 = of_count (n + 1).
Proof.
  unfold of_count, Qplus, inject_Z. simpl. f_equal. lia.
Qed.

Lemma bump_counts occ s a occ' f :
  bump occ s a = Returns occ' -> occ_counts occ f ->
  occ_counts occ'
    (fun i j => (f i j + if (s =? i)%nat && (a =? j)%nat then 1 else 0)%nat).
Proof.
  unfold bump. intros H Hocc i j q.
  apply obind_returns in H as (row & Hr & H).
  apply obind_returns in H as (o & Ho & H).
  apply subscript_returns in Hr, Ho. injection H as <-.
  rewrite (slot_insert _ _ _ _ o) by done.
  destruct (decide (i = s /\ j = a)) as [[-> ->]|Hne].
  - intros [= <-]. rewrite !Nat.eqb_refl. simpl.
    rewrite (Hocc s a o) by (unfold slot; by rewrite Hr).
    apply of_count_succ.
  - intros Hq. rewrite (Hocc _ _ _ Hq). f_equal.
    destruct (Nat.eqb_spec s i), (Nat.eqb_spec a j); simpl; lia.
Qed.

Lemma while_returns fuel m p eps :
  forall l w l' w',
    while_not_done fuel m p eps l w = (Returns l', w') ->
    exists steps,
      w_events w' = w_events w ++ steps
      /\ Forall is_step steps
      /\ done l' = true
      /\ step_count l' = (step_count l + length steps)%nat
      /\ rew l' = foldl pymax (rew l) (rewards steps)
      /\ forall f, occ_counts (sa_occurence_matrix l) f ->
           occ_counts (sa_occurence_matrix l')
             (fun i j => (f i j + occurrences i j (state l) steps)%nat).
Proof.
  induction fuel as [|fuel IH]; intros l w l' w'; simpl.
  - destruct (done l) eqn:Hd; [|discriminate].
    intros [= <- <-]. exists []. rewrite app_nil_r. simpl.
    repeat split; [constructor|done|lia|].
    intros f Hf i j q Hq. rewrite (Hf _ _ _ Hq). f_equal. lia.
  - destruct (done l) eqn:Hd.
    + intros [= <- <-]. exists []. rewrite app_nil_r. simpl.
      repeat split; [constructor|done|lia|].
      intros f Hf i j q Hq. rewrite (Hf _ _ _ Hq). f_equal. lia.
    + intros H. apply bind_returns in H as (l1 & w1 & H1 & H).
      apply loop_body_returns in H1 as (a & s' & r & d & occ' & Hb & -> & E1).
      apply IH in H as (steps & E & Hsteps & Hdone & Hcount & Hrew & Hocc).
      simpl in *.
      exists (EvStep a s' r d :: steps).
      rewrite E, E1, <- app_assoc. simpl.
      repeat split; [by constructor|done|lia|done|].
      intros f Hf i j q Hq.
      rewrite (Hocc _ (bump_counts _ _ _ _ _ Hb Hf) _ _ _ Hq).
      f_equal. lia.
Qed.

Lemma update_values_others occ rew (m m' : list (list cell)) i j :
  update_values occ rew m = Returns m' ->
  ~ ((i < shape0 m)%nat /\ (j < shape1 m)%nat) ->
  slot m' i j = slot m i j.
Proof.
  unfold update_values. intros Hrun Hout.
  change (slot m' i j) with (slot_at m' (i, j)).
  change (slot m i j) with (slot_at m (i, j)).
  eapply (for_each_others slot_at
            (fun s i => for_each (seq 0 (shape1 m)) (update_slot occ rew i) s)
            (fun i k => fst k = i /\ (snd k < shape1 m)%nat));
    [|exact Hrun|].
  - intros s x s' k H Hno. eapply update_row_others; eauto.
  - intros x Hin [Hx Hlt]. apply in_seq in Hin. simpl in *. apply Hout. lia.
Qed.

Lemma update_values_dims occ rew (m m' : list (list cell)) :
  update_values occ rew m = Returns m' -> map length m' = map length m.
Proof.
  unfold update_values.
  apply (for_each_invariant _ (fun s => map length s = map length m));
    [|done].
  intros s i s' _ Hs.
  apply (for_each_invariant _ (fun s => map length s = map length m));
    [|done].
  intros s1 j s2 _ Hs1 H. rewrite <- Hs1. eapply update_slot_dims, H.
Qed.

Lemma episode_app (w w' : world) evs :
  w_events w' = w_events w ++ evs -> episode w w' = evs.
Proof. unfold episode. intros ->. apply drop_app_length. Qed.

Lemma zeros2_counts r c : occ_counts (zeros2 r c) (fun _ _ => 0%nat).
Proof.
  intros i j q. unfold slot, zeros2, zeros.
  destruct (replicate r (replicate c 0) !! i) as [row|] eqn:E; [|done].
  apply lookup_replicate in E as [-> _].
  intros H. by apply lookup_replicate in H as [-> _].
Qed.

(** What a finished call of [one_iteration] did. *)
Lemma one_iteration_returns m p eps w m' r n w' :
  one_iteration m p eps w = (Returns (m', r, n), w') ->
  exists steps occ,
    episode w w' = EvEpisode p eps :: EvReset :: steps
    /\ Forall is_step steps
    /\ n = length steps
    /\ r = foldl pymax 0 (rewards steps)
    /\ occ_counts occ (fun i j => occurrences i j 0 steps)
    /\ update_values occ r m = Returns m'.
Proof.
  unfold one_iteration. intros H.
  apply bind_returns in H as ([] & w1 & H1 & H).
  apply bind_returns in H as (l0 & w2 & H2 & H).
  apply bind_returns in H as (l & w3 & H3 & H).
  apply bind_returns in H as (m1 & w4 & H4 & H).
  injection H as <- <- <- <-. injection H4 as Hup <-.
  injection H1 as <-. injection H2 as <- <-.
  apply while_returns in H3 as (steps & E & Hsteps & Hdone & Hn & Hr & Hocc).
  simpl in *.
  exists steps, (sa_occurence_matrix l).
  split; [|repeat split; try done].
  - apply episode_app. rewrite E. by rewrite <- !app_assoc.
  - intros i j q Hq.
    by rewrite (Hocc _ (zeros2_counts 16 4) _ _ _ Hq).
Qed.

Lemma Qle_bool_of_count (o : nat) : Qle_bool 1 (of_count o) = (1 <=? o)%nat.
Proof.
  unfold Qle_bool, of_count. cbn [Qnum Qden inject_Z].
  destruct (Nat.leb_spec 1 o); [apply Z.leb_le | apply Z.leb_gt]; lia.
Qed.

Lemma rectangular_row {A} (m : list (list A)) i row :
  rectangular m -> m !! i = Some row -> length row = shape1 m.
Proof.
  unfold rectangular. intros Hrect Hrow.
  assert (H : map length m !! i = Some (length row))
    by (by rewrite list_lookup_fmap, Hrow).
  rewrite Hrect in H. by apply lookup_replicate in H as [-> _].
Qed.

Lemma slot_in_shape {A} (m : list (list A)) i j c :
  rectangular m -> slot m i j = Some c ->
  (i < shape0 m)%nat /\ (j < shape1 m)%nat.
Proof.
  unfold slot. intros Hrect H.
  destruct (m !! i) as [row|] eqn:E; [|done].
  split; [by eapply lookup_lt_Some|].
  rewrite <- (rectangular_row m i row) by done. by eapply lookup_lt_Some.
Qed.

(** Every slot after the episode, from the slot before and the number
    of times its pair was played. *)
Lemma one_iteration_slot m p eps w m' r n w' i j c :
  one_iteration m p eps w = (Returns (m', r, n), w') ->
  rectangular m ->
  slot m i j = Some c ->
  slot m' i j
  = Some (let o := occurrences i j 0 (episode w w') in
          if (1 <=? o)%nat then update_cell (of_count o) r c else c).
Proof.
  intros Hrun Hrect Hc.
  apply one_iteration_returns in Hrun
    as (steps & occ & -> & _ & _ & _ & Hocc & Hup).
  destruct (slot_in_shape _ _ _ _ Hrect Hc) as [Hi Hj].
  destruct (update_values_touched _ _ _ _ _ _ Hup Hi Hj) as [-> [q Hq]].
  rewrite Hc. simpl. f_equal. unfold updated. simpl. rewrite Hq.
  rewrite (Hocc _ _ _ Hq). by rewrite Qle_bool_of_count.
Qed.

Lemma one_iteration_dims m p eps w m' r n w' :
  one_iteration m p eps w = (Returns (m', r, n), w') ->
  map length m' = map length m.
Proof.
  intros Hrun.
  apply one_iteration_returns in Hrun as (steps & occ & _ & _ & _ & _ & _ & Hup).
  by eapply update_values_dims.
Qed.

(** C1: after an episode, a pair played [o >= 1] times in it has its
    visit count raised by [o] and its running average moved from the
    old average towards the episode reward by the fraction
    [o / (new visit count)]. *)
Theorem one_iteration_update m p eps w m' r n w' i j c :
  one_iteration m p eps w = (Returns (m', r, n), w') ->
  rectangular m ->
  slot m i j = Some c ->
  let o := occurrences i j 0 (episode w w') in
  (1 <= o)%nat ->
  let total_visit_count := count c + of_count o in
  slot m' i j
  = Some (Cell (value c + (of_count o / total_visit_count) * (r - value c))
               total_visit_count).
Proof.
  intros Hrun Hrect Hc o Ho total.
  rewrite (one_iteration_slot _ _ _ _ _ _ _ _ _ _ _ Hrun Hrect Hc).
  fold o. cbv zeta.
  destruct (Nat.leb_spec 1 o) as [_|Hlt]; [reflexivity | lia].
Qed.

(** C9: a pair that was not played in the episode keeps both fields of
    its slot. *)
Theorem one_iteration_frame m p eps w m' r n w' i j c :
  one_iteration m p eps w = (Returns (m', r, n), w') ->
  slot m i j = Some c ->
  occurrences i j 0 (episode w w') = 0%nat ->
  slot m' i j = Some c.
Proof.
  intros Hrun Hc Ho.
  apply one_iteration_returns in Hrun
    as (steps & occ & E & _ & _ & _ & Hocc & Hup).
  rewrite E in Ho. simpl in Ho.
  destruct (decide ((i < shape0 m)%nat /\ (j < shape1 m)%nat)) as [[Hi Hj]|Hout].
  - destruct (update_values_touched _ _ _ _ _ _ Hup Hi Hj) as [-> [q Hq]].
    rewrite Hc. simpl. f_equal. unfold updated. simpl. rewrite Hq.
    rewrite (Hocc _ _ _ Hq), Ho. reflexivity.
  - by rewrite (update_values_others _ _ _ _ _ _ Hup Hout).
Qed.

(** The matrices of a training run keep the shape 16 x 4 and hold
    non-negative visit counts. *)
Lemma reachable_shape m :
  reachable m -> map length m = replicate 16 4%nat.
Proof.
  induction 1 as [|m p eps w m' r n w' _ IH Hrun]; [reflexivity|].
  by rewrite (one_iteration_dims _ _ _ _ _ _ _ _ Hrun).
Qed.

Lemma dims_rectangular {A} (m : list (list A)) r c :
  map length m = replicate (S r) c -> rectangular m.
Proof.
  intros H. destruct m as [|row m]; simpl in H; [discriminate|].
  injection H as Hrow Hrest.
  assert (Hlen : length m = r).
  { rewrite <- (length_map length m), Hrest. apply length_replicate. }
  unfold rectangular, shape0, shape1. simpl.
  by rewrite Hlen, Hrow, Hrest.
Qed.

Lemma reachable_rectangular m : reachable m -> rectangular m.
Proof. intros H. eapply dims_rectangular, reachable_shape, H. Qed.

Lemma of_count_nonneg (o : nat) : 0 <= of_count o.
Proof. unfold of_count, Qle. simpl. lia. Qed.

Lemma of_count_ge_1 (o : nat) : (1 <= o)%nat -> 1 <= of_count o.
Proof. unfold of_count, Qle. simpl. lia. Qed.

Lemma reachable_counts m :
  reachable m -> forall i j c, slot m i j = Some c -> 0 <= count c.
Proof.
  induction 1 as [|m p eps w m' r n w' Hm IH Hrun]; intros i j c Hc.
  - unfold slot, initial_sa_valmat in Hc.
    destruct (replicate 16 _ !! i) as [row|] eqn:E; [|done].
    apply lookup_replicate in E as [-> _].
    apply lookup_replicate in Hc as [-> _]. simpl. apply Qle_refl.
  - pose proof (reachable_rectangular _ Hm) as Hrect.
    assert (Hdom : is_Some (slot m i j)).
    { unfold slot in *.
      pose proof (one_iteration_dims _ _ _ _ _ _ _ _ Hrun) as Hd.
      destruct (m' !! i) as [row'|] eqn:E'; [|done].
      assert (H1 : map length m' !! i = Some (length row'))
        by (by rewrite list_lookup_fmap, E').
      rewrite Hd, list_lookup_fmap in H1.
      destruct (m !! i) as [row|]; [|done]. simpl in H1.
      apply lookup_lt_is_Some. injection H1 as ->.
      by eapply lookup_lt_Some. }
    destruct Hdom as [c0 Hc0].
    rewrite (one_iteration_slot _ _ _ _ _ _ _ _ _ _ _ Hrun Hrect Hc0) in Hc.
    cbv zeta in Hc.
    destruct (1 <=? occurrences i j 0 (episode w w'))%nat;
      injection Hc as <-; [|exact (IH _ _ _ Hc0)].
    simpl. unfold divisor.
    rewrite <- (Qplus_0_r 0). apply Qplus_le_compat;
      [exact (IH _ _ _ Hc0) | apply of_count_nonneg].
Qed.

(** C10: the visit counts of a training run are non-negative, and an
    episode raises the count of every pair by exactly the number of
    times the pair was played in it, so that no count ever goes down. *)
Theorem visit_counts_grow :
  (forall m i j c, reachable m -> slot m i j = Some c -> 0 <= count c)
  /\ (forall m p eps w m' r n w' i j c,
        one_iteration m p eps w = (Returns (m', r, n), w') ->
        rectangular m ->
        slot m i j = Some c ->
        exists c',
          slot m' i j = Some c'
          /\ count c' == count c + of_count (occurrences i j 0 (episode w w'))
          /\ count c <= count c').
Proof.
  split.
  - intros m i j c Hm Hc. by eapply reachable_counts.
  - intros m p eps w m' r n w' i j c Hrun Hrect Hc.
    rewrite (one_iteration_slot _ _ _ _ _ _ _ _ _ _ _ Hrun Hrect Hc).
    cbv zeta. set (o := occurrences i j 0 (episode w w')).
    eexists. split; [reflexivity|].
    destruct (Nat.leb_spec 1 o) as [Hge|Hlt].
    + simpl. unfold divisor. split; [reflexivity|].
      rewrite <- (Qplus_0_r (count c)) at 1.
      apply Qplus_le_compat; [apply Qle_refl | apply of_count_nonneg].
    + replace o with 0%nat by lia. split; [|apply Qle_refl].
      unfold of_count. simpl. ring.
Qed.

(** C5 (as amended): in an episode that starts from a matrix of a
    training run, the divisor of the update of a played pair is its
    visit count after the increment, which is at least 1; a pair that
    was not played is skipped by the guard and nothing is divided. *)
Theorem update_divisor_positive m p eps w m' r n w' i j c :
  reachable m ->
  one_iteration m p eps w = (Returns (m', r, n), w') ->
  slot m i j = Some c ->
  let o := occurrences i j 0 (episode w w') in
  ((1 <= o)%nat ->
     1 <= divisor (of_count o) c
     /\ ~ divisor (of_count o) c == 0
     /\ slot m' i j
        = Some (Cell (value c + (of_count o / divisor (of_count o) c)
                                * (r - value c))
                     (divisor (of_count o) c)))
  /\ (o = 0%nat -> slot m' i j = Some c).
Proof.
  intros Hm Hrun Hc o.
  pose proof (reachable_rectangular _ Hm) as Hrect.
  pose proof (reachable_counts _ Hm _ _ _ Hc) as Hcount.
  split.
  - intros Ho.
    assert (Hdiv : 1 <= divisor (of_count o) c).
    { unfold divisor. rewrite <- (Qplus_0_l 1).
      apply Qplus_le_compat; [done | by apply of_count_ge_1]. }
    split; [done|]. split.
    + intros Hz. rewrite Hz in Hdiv. exact (Qlt_not_le 0 1 eq_refl Hdiv).
    + rewrite (one_iteration_slot _ _ _ _ _ _ _ _ _ _ _ Hrun Hrect Hc).
      cbv zeta. fold o.
      destruct (Nat.leb_spec 1 o) as [_|Hlt]; [reflexivity | lia].
  - intros Ho.
    rewrite (one_iteration_slot _ _ _ _ _ _ _ _ _ _ _ Hrun Hrect Hc).
    cbv zeta. fold o. by rewrite Ho.
Qed.

Lemma pymax_cases (a b : Q) :
  (a < b /\ pymax a b = b) \/ (b <= a /\ pymax a b = a).
Proof.
  unfold pymax. destruct (Qlt_bool a b) eqn:E.
  - left. by apply Qlt_bool_iff in E.
  - right. by apply Qlt_bool_false_iff in E.
Qed.

Lemma foldl_pymax_ge_init (rs : list Q) :
  forall a, a <= foldl pymax a rs.
Proof.
  induction rs as [|x rs IH]; intros a; simpl; [apply Qle_refl|].
  eapply Qle_trans; [|apply IH].
  destruct (pymax_cases a x) as [[H ->]|[H ->]];
    [by apply Qlt_le_weak | apply Qle_refl].
Qed.

Lemma foldl_pymax_ge (rs : list Q) :
  forall a x, In x rs -> x <= foldl pymax a rs.
Proof.
  induction rs as [|y rs IH]; intros a x; simpl; [done|].
  intros [->|Hin]; [|by apply IH].
  eapply Qle_trans; [|apply foldl_pymax_ge_init].
  destruct (pymax_cases a x) as [[H ->]|[H ->]]; [apply Qle_refl | done].
Qed.

Lemma foldl_pymax_in (rs : list Q) :
  forall a, foldl pymax a rs = a \/ In (foldl pymax a rs) rs.
Proof.
  induction rs as [|y rs IH]; intros a; simpl; [by left|].
  destruct (IH (pymax a y)) as [->|Hin]; [|by right; right].
  destruct (pymax_cases a y) as [[_ ->]|[_ ->]]; [right; by left | by left].
Qed.

(** C8: the reward an episode returns is the largest of 0 and the
    rewards of its steps; when every step pays 0 or 1, it is 0 or 1. *)
Theorem episode_reward_is_max m p eps w m' r n w' :
  one_iteration m p eps w = (Returns (m', r, n), w') ->
  let rs := rewards (episode w w') in
  r = foldl pymax 0 rs
  /\ 0 <= r
  /\ (forall x, In x rs -> x <= r)
  /\ (r = 0 \/ In r rs)
  /\ ((forall x, In x rs -> x == 0 \/ x == 1) -> r == 0 \/ r == 1).
Proof.
  intros Hrun rs.
  apply one_iteration_returns in Hrun
    as (steps & occ & E & _ & _ & -> & _ & _).
  assert (Hrs : rs = rewards steps) by (unfold rs; by rewrite E).
  rewrite Hrs. repeat split.
  - apply foldl_pymax_ge_init.
  - intros x. apply foldl_pymax_ge.
  - apply foldl_pymax_in.
  - intros Hbin. destruct (foldl_pymax_in (rewards steps) 0) as [->|Hin];
      [by left | by apply Hbin].
Qed.

End WithKernel.

(** A run of the ring world for the statements above. *)
Lemma demo_run_returns :
  @one_iteration ring_world initial_sa_valmat "random" default_epsilon
    demo_world
  = (Returns (demo_matrix, 1, 3%nat), demo_world').
Proof. vm_compute. reflexivity. Qed.

Lemma one_iteration_update_witness :
  rectangular initial_sa_valmat
  /\ slot initial_sa_valmat 0 0 = Some (Cell (0 + (1 # 100)) 0)
  /\ (1 <= occurrences 0 0 0 (episode demo_world demo_world'))%nat
  /\ slot demo_matrix 0 0
     = Some (Cell ((0 + (1 # 100))
                   + (of_count 2 / (0 + of_count 2)) * (1 - (0 + (1 # 100))))
                  (0 + of_count 2)).
Proof.
  assert (Hrect : rectangular initial_sa_valmat) by reflexivity.
  assert (Hc : slot initial_sa_valmat 0 0 = Some (Cell (0 + (1 # 100)) 0))
    by reflexivity.
  assert (Ho : (1 <= occurrences 0 0 0 (episode demo_world demo_world'))%nat)
    by (vm_compute; lia).
  split; [exact Hrect|]. split; [exact Hc|]. split; [exact Ho|].
  exact (one_iteration_update (K := ring_world) _ _ _ _ _ _ _ _ 0%nat 0%nat _
           demo_run_returns Hrect Hc Ho).
Defined.

Lemma one_iteration_frame_witness :
  slot initial_sa_valmat 5 2 = Some (Cell (0 + (1 # 100)) 0)
  /\ occurrences 5 2 0 (episode demo_world demo_world') = 0%nat
  /\ slot demo_matrix 5 2 = Some (Cell (0 + (1 # 100)) 0).
Proof.
  assert (Hc : slot initial_sa_valmat 5 2 = Some (Cell (0 + (1 # 100)) 0))
    by reflexivity.
  assert (Ho : occurrences 5 2 0 (episode demo_world demo_world') = 0%nat)
    by reflexivity.
  split; [exact Hc|]. split; [exact Ho|].
  exact (one_iteration_frame (K := ring_world) _ _ _ _ _ _ _ _ 5%nat 2%nat _
           demo_run_returns Hc Ho).
Defined.

Lemma visit_counts_grow_witness :
  0 <= count (Cell (0 + (1 # 100)) 0)
  /\ exists c',
       slot demo_matrix 0 0 = Some c'
       /\ count c' == 0 + of_count 2
       /\ 0 <= count c'.
Proof.
  destruct (visit_counts_grow (K := ring_world)) as [Hpos Hgrow].
  split.
  - exact (Hpos initial_sa_valmat 0%nat 0%nat _ reachable_initial eq_refl).
  - exact (Hgrow _ _ _ _ _ _ _ _ 0%nat 0%nat _
             demo_run_returns eq_refl eq_refl).
Defined.

Lemma update_divisor_positive_witness :
  1 <= divisor (of_count 2) (Cell (0 + (1 # 100)) 0)
  /\ slot demo_matrix 5 2 = Some (Cell (0 + (1 # 100)) 0).
Proof.
  split.
  - refine (proj1 (proj1 (update_divisor_positive (K := ring_world)
                           _ _ _ _ _ _ _ _ 0%nat 0%nat _
                           reachable_initial demo_run_returns eq_refl) _)).
    vm_compute. lia.
  - exact (proj2 (update_divisor_positive (K := ring_world)
                    _ _ _ _ _ _ _ _ 5%nat 2%nat _
                    reachable_initial demo_run_returns eq_refl) eq_refl).
Defined.

Lemma episode_reward_is_max_witness :
  rewards (episode demo_world demo_world') = [0; 0; 1]
  /\ (1 : Q) = foldl pymax 0 [0; 0; 1]
  /\ ((1 : Q) == 0 \/ (1 : Q) == 1).
Proof.
  pose proof (episode_reward_is_max (K := ring_world) _ _ _ _ _ _ _ _
                demo_run_returns) as (Hr & _ & _ & _ & Hbin).
  split; [reflexivity|]. split; [exact Hr|].
  apply Hbin. intros x Hin. vm_compute in Hin.
  destruct Hin as [<-|[<-|[<-|[]]]]; [by left | by left | by right].
Defined.

(** C5 (counterexample): initialization leaves every visit count at 0;
    the seed 0.01 is written to the running average.  The divisor of a
    pair that was not played would be 0: what keeps the division safe is
    the guard on the occurrence count. *)
Lemma seeded_count_is_zero :
  slot initial_sa_valmat 0 0 = Some (Cell (0 + (1 # 100)) 0)
  /\ count (Cell (0 + (1 # 100)) 0) == 0
  /\ divisor (of_count 0) (Cell (0 + (1 # 100)) 0) == 0
  /\ Qle_bool 1 (of_count 0) = false.
Proof. split; [reflexivity|]. split; [|split]; reflexivity. Qed.

End EpisodeFacts.

(** ** Choosing actions, and the training run *)

Module TrainingFacts.

Import MonteCarlo UpdateFacts EpisodeFacts.

Lemma argmax_from_spec (l : list Q) :
  forall best_i best i,
    let k := argmax_from best_i best i l in
    (k = best_i /\ forall j x, l !! j = Some x -> x <= best)
    \/ (exists j x,
          k = (i + j)%nat /\ l !! j = Some x /\ best < x
          /\ (forall j' y, l !! j' = Some y -> y <= x)
          /\ (forall j' y, (j' < j)%nat -> l !! j' = Some y -> y < x)).
Proof.
  induction l as [|x t IH]; intros best_i best i; simpl.
  - left. split; [done|]. intros j x H. by destruct j.
  - destruct (Qlt_bool best x) eqn:E.
    + apply Qlt_bool_iff in E. right.
      destruct (IH i x (S i)) as [[Hk Hall]|(j & y & Hk & Hy & Hlt & Hall & Hbefore)].
      * exists 0%nat, x. rewrite Hk.
        repeat split; [lia|done|..].
        -- intros [|j'] y; simpl; [intros [= <-]; apply Qle_refl | apply Hall].
        -- intros j' y Hj'. lia.
      * exists (S j), y. rewrite Hk.
        repeat split; [lia|done|by eapply Qlt_trans|..].
        -- intros [|j'] z; simpl;
             [intros [= <-]; by apply Qlt_le_weak | apply Hall].
        -- intros [|j'] z Hj'; simpl; [by intros [= <-]|].
           apply Hbefore. lia.
    + apply Qlt_bool_false_iff in E.
      destruct (IH best_i best (S i))
        as [[Hk Hall]|(j & y & Hk & Hy & Hlt & Hall & Hbefore)].
      * left. split; [done|].
        intros [|j'] z; simpl; [by intros [= <-] | apply Hall].
      * right. exists (S j), y. rewrite Hk.
        repeat split; [lia|done|done|..].
        -- intros [|j'] z; simpl; [|apply Hall].
           intros [= <-]. apply Qlt_le_weak. by eapply Qle_lt_trans.
        -- intros [|j'] z Hj'; simpl;
             [intros [= <-]; by eapply Qle_lt_trans|].
           apply Hbefore. lia.
Qed.

(** [np.argmax] returns the first position that holds the maximum. *)
Lemma argmax_first_max (l : list Q) (k : nat) :
  argmax l = Returns k ->
  exists x, l !! k = Some x
            /\ (forall j y, l !! j = Some y -> y <= x)
            /\ (forall j y, (j < k)%nat -> l !! j = Some y -> y < x).
Proof.
  destruct l as [|x t]; simpl; [discriminate|]. intros [= <-].
  destruct (argmax_from_spec t 0%nat x 1%nat)
    as [[-> Hall]|(j & y & -> & Hy & Hlt & Hall & Hbefore)].
  - exists x. repeat split.
    + intros [|j] y; simpl; [intros [= <-]; apply Qle_refl | apply Hall].
    + intros j y Hj. lia.
  - exists y. repeat split; [done|..].
    + intros [|j'] z; simpl;
        [intros [= <-]; by apply Qlt_le_weak | apply Hall].
    + intros [|j'] z Hj'; simpl; [by intros [= <-]|].
      apply Hbefore. lia.
Qed.

Section WithKernel.

Context `{K : Kernel}.

Local Open Scope M_scope.

(** C6: with [epsilon = 0] the bounded-greedy choice is the arg-max of
    the estimated values of the state, whatever float in [0,1) was
    drawn, and no action is sampled; with [epsilon = 1] it is the
    choice of the random policy. *)
Theorem tiny_epsilon_boundaries sa_valmat s rpm w u rest :
  w_rng w = Uniform u :: rest ->
  0 <= u -> u < 1 ->
  let w1 := World (w_env w) rest (w_events w) in
  tiny_epsilon_choice sa_valmat s rpm 0 w = (greedy_choice sa_valmat s, w1)
  /\ tiny_epsilon_choice sa_valmat s rpm 1 w = random_choice rpm s w1
  /\ (forall a, greedy_choice sa_valmat s = Returns a ->
        exists row x,
          sa_valmat !! s = Some row
          /\ map value row !! a = Some x
          /\ (forall j y, map value row !! j = Some y -> y <= x)
          /\ (forall j y, (j < a)%nat -> map value row !! j = Some y -> y < x)).
Proof.
  intros Hrng H0 H1 w1.
  assert (E0 : Qle_bool 0 u = true) by (by apply Qle_bool_iff).
  assert (E1 : Qle_bool 1 u = false).
  { destruct (Qle_bool 1 u) eqn:E; [|done].
    apply Qle_bool_iff in E. exfalso. exact (Qlt_not_le _ _ H1 E). }
  unfold tiny_epsilon_choice, bind, np_random_uniform.
  rewrite Hrng, E0, E1. fold w1.
  split; [reflexivity|]. split; [reflexivity|].
  intros a Ha. unfold greedy_choice in Ha.
  apply obind_returns in Ha as (row & Hrow & Ha).
  apply subscript_returns in Hrow.
  apply argmax_first_max in Ha as (x & Hx & Hmax & Hfirst).
  exists row, x. auto.
Qed.

(** C4 (as amended): with a policy name that is none of the three,
    [one_iteration] ends in an [UnboundLocalError] on [action] in the
    first pass of its loop: the environment has been reset by then; no
    draw was taken and no step was made. *)
Theorem unknown_policy_fails sa_valmat policy epsilon w :
  policy <> "random" -> policy <> "tiny_epsilon" -> policy <> "softmax" ->
  one_iteration sa_valmat policy epsilon w
  = (Raises UnboundLocalError,
     World (env_reset (w_env w)) (w_rng w)
       (w_events w ++ [EvEpisode policy epsilon; EvReset])).
Proof.
  intros H1 H2 H3.
  apply String.eqb_neq in H1, H2, H3.
  unfold one_iteration, bind, emit, init_env, bind, reset_env, ret.
  cbn [w_env w_rng w_events while_not_done done].
  unfold bind, loop_body, bind, choose_action.
  cbn [w_env w_rng w_events state action].
  rewrite H1, H2, H3. cbn.
  by rewrite <- app_assoc.
Qed.

Lemma calls_app (a b : list event) : calls (a ++ b) = calls a ++ calls b.
Proof.
  induction a as [|[p e| |x y z d] a IH]; simpl; [done| |done..].
  by rewrite IH.
Qed.

Lemma calls_steps (evs : list event) : Forall is_step evs -> calls evs = [].
Proof.
  induction 1 as [|[p e| |x y z d] evs H _ IH]; simpl; done.
Qed.

Lemma additive_no_calls : additive no_calls.
Proof.
  split; [done|]. unfold no_calls. intros a b Ha Hb.
  by rewrite calls_app, Ha, Hb.
Qed.

(** Whatever its outcome, a call of [one_iteration] is one episode. *)
Lemma one_iteration_calls sa_valmat policy epsilon w o w' :
  one_iteration sa_valmat policy epsilon w = (o, w') ->
  exists evs, w_events w' = w_events w ++ evs
              /\ calls evs = [(policy, epsilon)].
Proof.
  unfold one_iteration. intros H.
  apply bind_run in H
    as [([] & w1 & H1 & H)|[(e & w1 & [=] & _)|(w1 & [=] & _)]].
  injection H1 as <-.
  assert (Hrest : appends no_calls
    (l ← init_env;
     l ← (fun w => while_not_done (S (length (w_rng w)))
                     sa_valmat policy epsilon l w);
     sa_valmat' ← lift (update_values (sa_occurence_matrix l) (rew l) sa_valmat);
     ret (sa_valmat', rew l, step_count l))).
  { apply appends_bind; [apply additive_no_calls| |intros l0].
    { intros w0 o0 w0' [= <- <-]. by exists [EvReset]. }
    apply appends_bind; [apply additive_no_calls| |intros l].
    { intros w0 o0 w0' H0.
      destruct (while_steps _ _ _ _ _ _ _ _ H0) as (evs & E & Hs).
      exists evs. split; [done|]. by apply calls_steps. }
    apply appends_bind; [apply additive_no_calls| |intros m1].
    { apply appends_lift, additive_no_calls. }
    apply appends_ret, additive_no_calls. }
  destruct (Hrest _ _ _ H) as (evs & E & Hc). simpl in E.
  exists (EvEpisode policy epsilon :: evs).
  split; [by rewrite E, <- app_assoc|]. simpl. by rewrite Hc.
Qed.

(** A loop that makes one call per pass makes the calls of the passes
    it started, in order, and those of all its passes when it returns. *)
Lemma for_eachM_calls {St X} (body : St -> X -> M St) (c : X -> string * Q)
    (xs : list X) :
  (forall s x w o w', body s x w = (o, w') ->
     exists evs, w_events w' = w_events w ++ evs /\ calls evs = [c x]) ->
  forall s w o w',
    for_eachM xs body s w = (o, w') ->
    exists evs k,
      w_events w' = w_events w ++ evs
      /\ calls evs = map c (take k xs)
      /\ (forall s', o = Returns s' -> k = length xs).
Proof.
  intros Hbody. induction xs as [|x xs IH]; intros s w o w' Hrun; simpl in Hrun.
  - injection Hrun as <- <-. exists [], 0%nat. by rewrite app_nil_r.
  - apply bind_run in Hrun
      as [(s1 & w1 & H1 & H2)|[(e & w1 & H1 & [= -> ->])|(w1 & H1 & [= -> ->])]].
    + destruct (Hbody _ _ _ _ _ H1) as (e1 & E1 & C1).
      destruct (IH _ _ _ _ H2) as (e2 & k & E2 & C2 & Hk).
      exists (e1 ++ e2), (S k). rewrite E2, E1, app_assoc, calls_app, C1, C2.
      repeat split. intros s' Hs'. simpl. f_equal. by eapply Hk.
    + destruct (Hbody _ _ _ _ _ H1) as (e1 & E1 & C1).
      exists e1, 1%nat. simpl. by repeat split.
    + destruct (Hbody _ _ _ _ _ H1) as (e1 & E1 & C1).
      exists e1, 1%nat. simpl. by repeat split.
Qed.

Lemma episode_pass_calls {A} (run : M (list (list cell) * Q * nat))
    (k : list (list cell) * Q * nat -> M A) (c : string * Q) :
  (forall w o w', run w = (o, w') ->
     exists evs, w_events w' = w_events w ++ evs /\ calls evs = [c]) ->
  (forall a, appends silent (k a)) ->
  forall w o w', bind run k w = (o, w') ->
    exists evs, w_events w' = w_events w ++ evs /\ calls evs = [c].
Proof.
  intros Hrun Hk w o w' H.
  apply bind_run in H
    as [(a & w1 & H1 & H2)|[(e & w1 & H1 & [= -> ->])|(w1 & H1 & [= -> ->])]];
    eauto.
  destruct (Hrun _ _ _ H1) as (e1 & E1 & C1).
  destruct (Hk _ _ _ _ H2) as (e2 & E2 & ->).
  exists e1. by rewrite E2, app_nil_r.
Qed.

Lemma warm_up_calls st w o w' :
  warm_up st w = (o, w') ->
  exists evs k,
    w_events w' = w_events w ++ evs
    /\ calls evs = map warm_up_call (take k (seq 0 10))
    /\ (forall st', o = Returns st' -> k = 10%nat).
Proof.
  unfold warm_up. intros H.
  eapply (for_eachM_calls _ warm_up_call) in H; [exact H|].
  intros [m tw] x. apply episode_pass_calls.
  - intros ? ? ?. apply one_iteration_calls.
  - intros [[m1 r1] n1]. apply appends_ret, additive_silent.
Qed.

Lemma training_calls policy train_epochs st w o w' :
  training policy train_epochs st w = (o, w') ->
  exists evs k,
    w_events w' = w_events w ++ evs
    /\ calls evs
       = map (training_call policy train_epochs) (take k (seq 0 train_epochs))
    /\ (forall st', o = Returns st' -> k = train_epochs).
Proof.
  unfold training. intros H.
  eapply (for_eachM_calls _ (training_call policy train_epochs)) in H.
  - destruct H as (evs & k & E & C & Hk). exists evs, k.
    repeat split; [done..|]. intros st' Hst.
    rewrite (Hk _ Hst). apply length_seq.
  - intros [m tw] x. apply episode_pass_calls.
    + intros ? ? ?. apply one_iteration_calls.
    + intros [[m1 r1] n1]. apply appends_ret, additive_silent.
Qed.

Lemma testing_calls test_epochs st w o w' :
  testing test_epochs st w = (o, w') ->
  exists evs k,
    w_events w' = w_events w ++ evs
    /\ calls evs = map testing_call (take k (seq 0 test_epochs)).
Proof.
  unfold testing. intros H.
  eapply (for_eachM_calls _ testing_call) in H.
  - destruct H as (evs & k & E & C & _). eauto.
  - intros [[m wins] lg] x. apply episode_pass_calls.
    + intros ? ? ?. apply one_iteration_calls.
    + intros [[m1 r1] n1].
      apply appends_bind; [apply additive_silent|apply read_local_silent|].
      intros q.
      apply appends_bind; [apply additive_silent|apply read_local_silent|].
      intros q'. apply appends_ret, additive_silent.
Qed.

Lemma return_statement_silent test_wins train_wins train_epochs test_epochs :
  appends silent
    (return_statement test_wins train_wins train_epochs test_epochs).
Proof.
  unfold return_statement.
  apply appends_bind; [apply additive_silent| |intros a].
  { unfold read_global.
    destruct test_win; [apply appends_ret | apply appends_lift];
      apply additive_silent. }
  apply appends_bind; [apply additive_silent| |intros b].
  { apply appends_lift, additive_silent. }
  apply appends_bind; [apply additive_silent| |intros d].
  { apply appends_lift, additive_silent. }
  apply appends_ret, additive_silent.
Qed.

Lemma map_const_replicate {A B} (c : B) (l : list A) :
  map (fun _ => c) l = replicate (length l) c.
Proof. induction l as [|x l IH]; simpl; [done | by rewrite IH]. Qed.

Lemma schedule_phases policy train_epochs test_epochs :
  schedule policy train_epochs test_epochs
  = map warm_up_call (seq 0 10)
    ++ map (training_call policy train_epochs) (seq 0 train_epochs)
    ++ map testing_call (seq 0 test_epochs).
Proof.
  unfold schedule, testing_call. rewrite (map_const_replicate _ (seq 0 _)).
  by rewrite length_seq.
Qed.

Lemma map_take_prefix {A B} (f : A -> B) (k : nat) (xs : list A) :
  map f (take k xs) `prefix_of` map f xs.
Proof.
  exists (map f (drop k xs)). by rewrite <- map_app, take_drop.
Qed.

(** The calls of a run of [train_and_test], whatever its outcome. *)
Lemma train_and_test_calls policy train_epochs test_epochs w o w' :
  train_and_test policy train_epochs test_epochs w = (o, w') ->
  calls (episode w w')
    `prefix_of` schedule policy train_epochs test_epochs.
Proof.
  rewrite schedule_phases. unfold train_and_test. intros H.
  apply bind_run in H
    as [([m1 tw1] & w1 & H1 & H)|[(e & w1 & H1 & [= -> ->])|(w1 & H1 & [= -> ->])]].
  2,3: apply warm_up_calls in H1 as (evs & k & E & C & _);
       rewrite (episode_app _ _ _ E), C;
       apply prefix_app_r, map_take_prefix.
  apply warm_up_calls in H1 as (e1 & k1 & E1 & C1 & Hk1).
  rewrite (Hk1 _ eq_refl) in C1. change (take 10 (seq 0 10)) with (seq 0 10) in C1.
  apply bind_run in H
    as [([m2 tw2] & w2 & H2 & H)|[(e & w2 & H2 & [= -> ->])|(w2 & H2 & [= -> ->])]].
  2,3: apply training_calls in H2 as (e2 & k2 & E2 & C2 & _);
       rewrite E1, <- app_assoc in E2;
       rewrite (episode_app _ _ _ E2), calls_app, C1, C2;
       apply prefix_app, prefix_app_r, map_take_prefix.
  apply training_calls in H2 as (e2 & k2 & E2 & C2 & Hk2).
  rewrite (Hk2 _ eq_refl) in C2.
  rewrite take_ge in C2 by (by rewrite length_seq).
  assert (Htest : forall w3 o3 w3',
            testing test_epochs (m2, None, None) w2 = (o3, w3) ->
            w_events w3' = w_events w3 ->
            calls (episode w w3')
              `prefix_of` map warm_up_call (seq 0 10)
                 ++ map (training_call policy train_epochs) (seq 0 train_epochs)
                 ++ map testing_call (seq 0 test_epochs)).
  { intros w3 o3 w3' H3 Hsame.
    apply testing_calls in H3 as (e3 & k3 & E3 & C3).
    rewrite <- Hsame, E2, E1, <- !app_assoc in E3.
    rewrite (episode_app _ _ _ E3), !calls_app, C1, C2, C3.
    apply prefix_app, prefix_app, map_take_prefix. }
  apply bind_run in H
    as [(st3 & w3 & H3 & H)|[(e & w3 & H3 & [= -> ->])|(w3 & H3 & [= -> ->])]];
    [|by eapply Htest..].
  eapply Htest; [exact H3|].
  destruct (return_statement_silent _ _ _ _ _ _ _ H) as (e4 & -> & ->).
  by rewrite app_nil_r.
Qed.

(** The episodes of a run of [train_and_test] follow, in order, ten
    warm-up episodes under the random policy, then [train_epochs]
    episodes under the chosen policy with the decaying epsilon, then
    episodes under the bounded-greedy policy with epsilon 0, at most
    [test_epochs] of them; and a run whose warm-up and training return
    has made all the episodes of these two phases. *)
Lemma train_and_test_phases policy train_epochs test_epochs :
  (forall w o w',
     train_and_test policy train_epochs test_epochs w = (o, w') ->
     calls (episode w w')
       `prefix_of` schedule policy train_epochs test_epochs)
  /\ (forall w o w' st1 w1 st2 w2,
        train_and_test policy train_epochs test_epochs w = (o, w') ->
        warm_up (initial_sa_valmat, 0) w = (Returns st1, w1) ->
        training policy train_epochs st1 w1 = (Returns st2, w2) ->
        exists k,
          (k <= test_epochs)%nat
          /\ calls (episode w w')
             = replicate 10 ("random", default_epsilon)
               ++ map (fun i => (policy, epsilon_schedule i train_epochs))
                    (seq 0 train_epochs)
               ++ replicate k ("tiny_epsilon", 0)).
Proof.
  split.
  - intros w o w'. apply train_and_test_calls.
  - intros w o w' [m1 tw1] w1 [m2 tw2] w2 Hrun H1 H2.
    unfold train_and_test, bind in Hrun. rewrite H1, H2 in Hrun.
    apply warm_up_calls in H1 as (e1 & k1 & E1 & C1 & Hk1).
    apply training_calls in H2 as (e2 & k2 & E2 & C2 & Hk2).
    rewrite (Hk1 _ eq_refl) in C1. rewrite (Hk2 _ eq_refl) in C2.
    rewrite take_ge in C2 by (by rewrite length_seq).
    assert (Htest : forall o3 w3,
              testing test_epochs (m2, None, None) w2 = (o3, w3) ->
              w_events w' = w_events w3 ->
              exists k,
                (k <= test_epochs)%nat
                /\ calls (episode w w')
                   = replicate 10 ("random", default_epsilon)
                     ++ map (fun i => (policy, epsilon_schedule i train_epochs))
                          (seq 0 train_epochs)
                     ++ replicate k ("tiny_epsilon", 0)).
    { intros o3 w3 H3 Hsame.
      apply testing_calls in H3 as (e3 & k3 & E3 & C3).
      exists (length (take k3 (seq 0 test_epochs))). split.
      - rewrite length_take, length_seq. lia.
      - rewrite <- Hsame, E2, E1, <- !app_assoc in E3.
        rewrite (episode_app _ _ _ E3), !calls_app, C1, C2, C3.
        unfold testing_call. rewrite (map_const_replicate _ (take k3 _)).
        reflexivity. }
    destruct (testing test_epochs (m2, None, None) w2) as [[st3| |] w3] eqn:E3.
    + eapply Htest; [done|].
      destruct (return_statement_silent _ _ _ _ _ _ _ Hrun) as (e4 & -> & ->).
      by rewrite app_nil_r.
    + injection Hrun as <- <-. by eapply Htest.
    + injection Hrun as <- <-. by eapply Htest.
Qed.

(** The matrices [train_and_test] hands from one episode to the next
    are those of a training run. *)
Lemma for_eachM_invariant {St X} (body : St -> X -> M St) (I : St -> Prop)
    (xs : list X) :
  (forall s x w s' w', I s -> body s x w = (Returns s', w') -> I s') ->
  forall s w s' w',
    I s -> for_eachM xs body s w = (Returns s', w') -> I s'.
Proof.
  intros Hbody. induction xs as [|x xs IH]; intros s w s' w' Hs Hrun;
    simpl in Hrun.
  - by injection Hrun as <- _.
  - apply bind_returns in Hrun as (s1 & w1 & H1 & H2). eauto.
Qed.

Lemma warm_up_reachable st w st' w' :
  warm_up st w = (Returns st', w') ->
  reachable (fst st) -> reachable (fst st').
Proof.
  unfold warm_up. intros Hrun Hst.
  eapply (for_eachM_invariant _ (fun s => reachable (fst s)));
    [|exact Hst|exact Hrun].
  intros [m tw] x w0 [m' tw'] w0' Hm H. simpl in *.
  apply bind_returns in H as ([[m1 r1] n1] & w1 & H1 & [= <- _ _]).
  by eapply reachable_episode.
Qed.

Lemma training_reachable policy train_epochs st w st' w' :
  training policy train_epochs st w = (Returns st', w') ->
  reachable (fst st) -> reachable (fst st').
Proof.
  unfold training. intros Hrun Hst.
  eapply (for_eachM_invariant _ (fun s => reachable (fst s)));
    [|exact Hst|exact Hrun].
  intros [m tw] x w0 [m' tw'] w0' Hm H. simpl in *.
  apply bind_returns in H as ([[m1 r1] n1] & w1 & H1 & [= <- _ _]).
  by eapply reachable_episode.
Qed.

(** The test loop reads [wins] before anything assigns it: a run with
    at least one test episode never returns. *)
Lemma testing_never_returns test_epochs sa_valmat lg w st w' :
  testing (S test_epochs) (sa_valmat, None, lg) w <> (Returns st, w').
Proof.
  unfold testing. simpl. intros H.
  apply bind_returns in H as (s1 & w1 & H1 & _).
  apply bind_returns in H1 as ([[m1 r1] n1] & w2 & _ & H1).
  apply bind_returns in H1 as (q & w3 & H1 & _). discriminate H1.
Qed.

(** With no test episode the return statement divides by zero, when it
    finds [test_win] at all: no run of [train_and_test] returns. *)
Lemma train_and_test_never_returns policy train_epochs test_epochs w t w' :
  train_and_test policy train_epochs test_epochs w <> (Returns t, w').
Proof.
  unfold train_and_test. intros H.
  apply bind_returns in H as ([m1 tw1] & w1 & _ & H).
  apply bind_returns in H as ([m2 tw2] & w2 & _ & H).
  apply bind_returns in H as (st3 & w3 & H3 & H).
  destruct test_epochs as [|te]; [|by apply testing_never_returns in H3].
  unfold return_statement in H.
  apply bind_returns in H as (a & w4 & _ & H).
  apply bind_returns in H as (b & w5 & H5 & _). discriminate H5.
Qed.

End WithKernel.

Lemma tiny_epsilon_boundaries_witness :
  0 <= 1 # 2 /\ 1 # 2 < 1
  /\ @tiny_epsilon_choice ring_world demo_matrix 0
       (@random_policy_matrix ring_world) 0
       shot_world
     = (Returns 0%nat, @World ring_world 0%nat [Choice 2] [])
  /\ @tiny_epsilon_choice ring_world demo_matrix 0
       (@random_policy_matrix ring_world) 1
       shot_world
     = (Returns 2%nat, @World ring_world 0%nat [] []).
Proof.
  assert (H0 : 0 <= 1 # 2) by (by vm_compute).
  assert (H1 : 1 # 2 < 1) by reflexivity.
  pose proof (tiny_epsilon_boundaries (K := ring_world) demo_matrix 0%nat
                (@random_policy_matrix ring_world) shot_world (1 # 2) [Choice 2]
                eq_refl H0 H1) as (Hgreedy & Hrandom & _).
  split; [exact H0|]. split; [exact H1|]. split.
  - exact Hgreedy.
  - exact Hrandom.
Defined.

Lemma unknown_policy_fails_witness :
  "greedy" <> "random" /\ "greedy" <> "tiny_epsilon" /\ "greedy" <> "softmax"
  /\ @one_iteration ring_world initial_sa_valmat "greedy" default_epsilon
       demo_world
     = (Raises UnboundLocalError,
        @World ring_world 0%nat [Choice 0; Choice 0; Choice 3]
          [EvEpisode "greedy" default_epsilon; EvReset]).
Proof.
  assert (H1 : "greedy" <> "random") by discriminate.
  assert (H2 : "greedy" <> "tiny_epsilon") by discriminate.
  assert (H3 : "greedy" <> "softmax") by discriminate.
  split; [exact H1|]. split; [exact H2|]. split; [exact H3|].
  exact (unknown_policy_fails (K := ring_world) initial_sa_valmat "greedy"
           default_epsilon demo_world H1 H2 H3).
Defined.

(** C4 (counterexample): the unknown name "greedy" makes [one_iteration]
    fail only after [env.reset()], and makes [train_and_test] fail only
    after its ten warm-up episodes were simulated, twenty steps in all. *)
Lemma unknown_policy_after_simulation :
  (let r := @one_iteration ring_world initial_sa_valmat "greedy"
              default_epsilon demo_world in
   fst r = Raises UnboundLocalError
   /\ w_events demo_world = []
   /\ w_events (snd r) = [EvEpisode "greedy" default_epsilon; EvReset])
  /\ (let r := @train_and_test ring_world "greedy" 1 1 training_world in
      fst r = Raises UnboundLocalError
      /\ length (rewards (w_events (snd r))) = 20%nat
      /\ length (calls (w_events (snd r))) = 11%nat).
Proof. split; vm_compute; repeat split; reflexivity. Qed.

Lemma training_run_eq :
  @train_and_test ring_world "random" 1 1 training_world = training_run.
Proof. vm_compute. reflexivity. Qed.

Lemma warm_up_run_eq :
  @warm_up ring_world (initial_sa_valmat, 0) training_world
  = (Returns warmed_up, snd warm_up_run).
Proof. vm_compute. reflexivity. Qed.

Lemma trained_run_eq :
  @training ring_world "random" 1 warmed_up (snd warm_up_run)
  = (Returns trained, snd trained_run).
Proof. vm_compute. reflexivity. Qed.

(** C3: [train_and_test] with the random policy, one training and one
    test episode, on the ring world.  The run makes the twelve episodes
    of its three phases in order, ten of warm-up, one of training and
    one of test, and then, instead of returning the four figures, ends
    in an [UnboundLocalError]: the test loop adds to the local [wins],
    which nothing assigns, where the function set up [test_wins]. *)
Theorem train_and_test_no_tuple :
  @train_and_test ring_world "random" 1 1 training_world = training_run
  /\ fst training_run = Raises UnboundLocalError
  /\ calls (w_events (snd training_run)) = @schedule ring_world "random" 1 1.
Proof.
  split; [exact training_run_eq|].
  split; [reflexivity | vm_compute; reflexivity].
Qed.

End TrainingFacts.

(** ** More on the policy-iteration solver *)

Module SolverFacts.

Import PolicyIteration PolicyIterationFacts.
Local Open Scope outcome_scope.

Lemma take_agree {A} (l1 l2 : list A) (a : nat) :
  length l1 = length l2 ->
  (forall j, (j < a)%nat -> l1 !! j = l2 !! j) -> take a l1 = take a l2.
Proof.
  intros Hlen Hj. apply list_eq. intros i.
  destruct (decide (i < a)%nat) as [Hlt|Hge].
  - rewrite !lookup_take_lt by done. by apply Hj.
  - rewrite !lookup_take_ge by lia. done.
Qed.

Lemma pymax_ge_l (a b : Q) : a <= pymax a b.
Proof.
  destruct (EpisodeFacts.pymax_cases a b) as [[H ->]|[H ->]];
    [by apply Qlt_le_weak | apply Qle_refl].
Qed.

Lemma pymax_ge_r (a b : Q) : b <= pymax a b.
Proof.
  destruct (EpisodeFacts.pymax_cases a b) as [[H ->]|[H ->]];
    [apply Qle_refl | done].
Qed.

Lemma evaluate_state_returns policy environment discount_factor V delta state
    V1 delta1 :
  evaluate_state policy environment discount_factor (V, delta) state
    = Returns (V1, delta1) ->
  exists v Vs,
    state_backup policy environment discount_factor V state = Returns v
    /\ V !! state = Some Vs
    /\ V1 = <[state := v]> V
    /\ delta1 = pymax delta (Qabs (Vs - v)).
Proof.
  unfold evaluate_state, state_backup. intros H.
  split_bind H. rename a into row. rewrite Hstep. simpl.
  split_bind H. rename a into v. rewrite Hstep0.
  split_bind H. rename a into Vs.
  apply UpdateFacts.subscript_returns in Hstep1.
  injection H as <- <-. by exists v, Vs.
Qed.

(** The state loop of a sweep, started at state [a] with [n] states to
    go. *)
Lemma sweep_loop policy environment discount_factor n :
  forall a Vc d V' d',
    for_each (seq a n) (evaluate_state policy environment discount_factor)
      (Vc, d) = Returns (V', d') ->
    length V' = length Vc
    /\ d <= d'
    /\ (forall j, (j < a)%nat -> V' !! j = Vc !! j)
    /\ (forall s, (a <= s < a + n)%nat ->
          exists v x,
            state_backup policy environment discount_factor
              (take s V' ++ drop s Vc) s = Returns v
            /\ Vc !! s = Some x /\ V' !! s = Some v
            /\ Qabs (x - v) <= d').
Proof.
  induction n as [|n IH]; intros a Vc d V' d' Hrun; simpl in Hrun.
  - injection Hrun as <- <-.
    repeat split; [apply Qle_refl|]. intros s Hs. lia.
  - split_bind Hrun. destruct a0 as [V1 d1].
    apply evaluate_state_returns in Hstep as (v & Vs & Hv & HVs & -> & ->).
    apply IH in Hrun as (Hlen & Hd & Hbefore & Hstates).
    rewrite length_insert in Hlen.
    pose proof (lookup_lt_Some _ _ _ HVs) as Ha.
    assert (Hd' : d <= d').
    { eapply Qle_trans; [apply pymax_ge_l | exact Hd]. }
    assert (Hbefore' : forall j, (j < a)%nat -> V' !! j = Vc !! j).
    { intros j Hj. rewrite Hbefore by lia.
      apply list_lookup_insert_ne. lia. }
    repeat split; [done..|].
    intros s Hs. destruct (decide (s = a)) as [->|Hne].
    + exists v, Vs.
      rewrite (take_agree V' Vc a Hlen Hbefore'), take_drop.
      repeat split; [done..| |].
      * rewrite Hbefore by lia. by apply list_lookup_insert_eq.
      * eapply Qle_trans; [apply pymax_ge_r | exact Hd].
    + destruct (Hstates s) as (v' & x & Hb & Hx & Hy & Habs); [lia|].
      rewrite drop_insert_lt in Hb by lia.
      rewrite list_lookup_insert_ne in Hx by lia.
      by exists v', x.
Qed.

(** X1: a sweep updates the value vector in place, state by state: the
    new value of state [s] is computed from the new values of the states
    before [s] and the old values of [s] and the states after it. *)
Theorem sweep_in_place policy environment discount_factor V V' delta s :
  sweep policy environment discount_factor V = Returns (V', delta) ->
  (s < nS environment)%nat ->
  exists v,
    state_backup policy environment discount_factor
      (take s V' ++ drop s V) s = Returns v
    /\ V' !! s = Some v.
Proof.
  unfold sweep. intros Hrun Hs.
  apply sweep_loop in Hrun as (_ & _ & _ & Hstates).
  destruct (Hstates s) as (v & x & Hb & _ & Hv & _); [lia|].
  by exists v.
Qed.

(** X2: the [delta] of a sweep is non-negative and bounds the change of
    every state's value in that sweep, and the sweep keeps the length of
    the value vector. *)
Theorem sweep_delta_bounds policy environment discount_factor V V' delta :
  sweep policy environment discount_factor V = Returns (V', delta) ->
  length V' = length V
  /\ 0 <= delta
  /\ (forall s x y,
        (s < nS environment)%nat -> V !! s = Some x -> V' !! s = Some y ->
        Qabs (x - y) <= delta).
Proof.
  unfold sweep. intros Hrun.
  apply sweep_loop in Hrun as (Hlen & Hd & _ & Hstates).
  repeat split; [done..|].
  intros s x y Hs Hx Hy.
  destruct (Hstates s) as (v & x' & _ & Hx' & Hv & Habs); [lia|].
  congruence.
Qed.

Lemma after_passes_invariant {S R} (body : S -> outcome (S + R))
    (I : S -> Prop) (k : nat) :
  (forall s s', I s -> body s = Returns (inl s') -> I s') ->
  forall s s', I s -> after_passes k body s = Some s' -> I s'.
Proof.
  intros Hbody. induction k as [|k IH]; intros s s' Hs; simpl.
  - by intros [= <-].
  - destruct (body s) as [[s1|r]| |] eqn:E; try discriminate. eauto.
Qed.

(** X3: the value function [policy_evaluation] returns has one entry per
    state and is certified by its last sweep: that sweep started from a
    vector of the same length and changed no state's value by [theta] or
    more. *)
Theorem policy_evaluation_converged policy environment discount_factor theta
    max_iterations V' :
  policy_evaluation policy environment discount_factor theta max_iterations
    = Returns (Some V') ->
  length V' = nS environment
  /\ exists V delta,
       sweep policy environment discount_factor V = Returns (V', delta)
       /\ length V = nS environment
       /\ delta < theta
       /\ (forall s x y, V !! s = Some x -> V' !! s = Some y ->
             Qabs (x - y) < theta).
Proof.
  unfold policy_evaluation. intros H.
  apply for_range_return_some in H as (k & V & _ & Hp & Hb).
  apply evaluation_round_inr in Hb as (delta & Hs & Hlt).
  assert (HV : length V = nS environment).
  { eapply (after_passes_invariant _ (fun V => length V = nS environment));
      [|apply length_replicate|exact Hp].
    intros V0 V1 H0 H1.
    apply evaluation_round_inl in H1 as (d1 & H1 & _).
    apply sweep_delta_bounds in H1 as (-> & _). done. }
  destruct (sweep_delta_bounds _ _ _ _ _ _ Hs) as (Hlen & _ & Hbound).
  split; [congruence|].
  exists V, delta. repeat split; [done..|].
  intros s x y Hx Hy. eapply Qle_lt_trans; [|exact Hlt].
  eapply Hbound; [|done..].
  rewrite <- HV. by eapply lookup_lt_Some.
Qed.

(** *** The [terminated] flag *)

Lemma for_each_ext {S X} (b1 b2 : S -> X -> outcome S) (xs : list X) :
  (forall s x, b1 s x = b2 s x) ->
  forall s, for_each xs b1 s = for_each xs b2 s.
Proof.
  intros Hb. induction xs as [|x xs IH]; intros s; simpl; [done|].
  rewrite Hb. destruct (b2 s x); simpl; auto.
Qed.

Lemma for_each_fmap {S X Y} (g : X -> Y) (body : S -> Y -> outcome S)
    (xs : list X) :
  forall s, for_each (map g xs) body s
            = for_each xs (fun s x => body s (g x)) s.
Proof.
  induction xs as [|x xs IH]; intros s; simpl; [done|].
  destruct (body s (g x)); simpl; auto.
Qed.

Lemma dict_get_fmap {A B} (g : A -> B) (l : list A) (i : nat) :
  dict_get (map g l) i = obind (dict_get l i) (fun x => Returns (g x)).
Proof.
  unfold dict_get. rewrite list_lookup_fmap. by destruct (l !! i).
Qed.

Lemma for_range_return_ext {S R} (b1 b2 : S -> outcome (S + R)) (n : nat) :
  (forall s, b1 s = b2 s) ->
  forall s, for_range_return n b1 s = for_range_return n b2 s.
Proof.
  intros Hb. induction n as [|n IH]; intros s; simpl; [done|].
  rewrite Hb. destruct (b2 s) as [[s'|r]| |]; auto.
Qed.

Lemma backup_action_reflag f environment state V discount_factor v ap :
  backup_action (reflag f environment) state V discount_factor v ap
  = backup_action environment state V discount_factor v ap.
Proof.
  unfold backup_action, reflag. cbn [P].
  rewrite dict_get_fmap.
  destruct (dict_get (P environment) state) as [Ps| |]; simpl; try done.
  rewrite dict_get_fmap.
  destruct (dict_get Ps ap.1) as [trs| |]; simpl; try done.
  rewrite for_each_fmap. by apply for_each_ext.
Qed.

Lemma sweep_reflag f policy environment discount_factor V :
  sweep policy (reflag f environment) discount_factor V
  = sweep policy environment discount_factor V.
Proof.
  unfold sweep. cbn [reflag nS]. apply for_each_ext.
  intros [V0 d] state. unfold evaluate_state.
  destruct (subscript policy state) as [row| |]; simpl; try done.
  rewrite (for_each_ext _ (backup_action environment state V0 discount_factor));
    [done|].
  intros v ap. apply backup_action_reflag.
Qed.

Lemma policy_evaluation_reflag f policy environment discount_factor theta n :
  policy_evaluation policy (reflag f environment) discount_factor theta n
  = policy_evaluation policy environment discount_factor theta n.
Proof.
  unfold policy_evaluation. cbn [reflag nS].
  apply for_range_return_ext. intros V. unfold evaluation_round.
  by rewrite sweep_reflag.
Qed.

Lemma one_step_lookahead_reflag f environment state V discount_factor :
  one_step_lookahead (reflag f environment) state V discount_factor
  = one_step_lookahead environment state V discount_factor.
Proof.
  unfold one_step_lookahead. cbn [reflag nA P].
  apply for_each_ext. intros av action.
  rewrite dict_get_fmap.
  destruct (dict_get (P environment) state) as [Ps| |]; simpl; try done.
  rewrite dict_get_fmap.
  destruct (dict_get Ps action) as [trs| |]; simpl; try done.
  rewrite for_each_fmap. by apply for_each_ext.
Qed.

Lemma improvement_round_reflag f environment discount_factor policy :
  improvement_round (reflag f environment) discount_factor policy
  = improvement_round environment discount_factor policy.
Proof.
  unfold improvement_round. rewrite policy_evaluation_reflag.
  destruct (policy_evaluation _ _ _ _ _) as [V| |]; simpl; try done.
  cbn [reflag nS].
  rewrite (for_each_ext _ (improve_state environment V discount_factor));
    [done|].
  intros [p b] state. unfold improve_state.
  by rewrite one_step_lookahead_reflag.
Qed.

(** X4: the solver never reads the [terminated] flag of a record: with
    the flags rewritten in any way, policy evaluation, the lookahead
    and policy iteration give the same outcome. *)
Theorem terminated_flag_unused
    (f : transition -> bool) (environment : environment)
    (policy : policy_t) (discount_factor theta : Q) (n state : nat)
    (V : option (list Q)) :
  policy_evaluation policy (reflag f environment) discount_factor theta n
  = policy_evaluation policy environment discount_factor theta n
  /\ one_step_lookahead (reflag f environment) state V discount_factor
     = one_step_lookahead environment state V discount_factor
  /\ policy_iteration (reflag f environment) discount_factor n
     = policy_iteration environment discount_factor n.
Proof.
  split; [apply policy_evaluation_reflag|].
  split; [apply one_step_lookahead_reflag|].
  unfold policy_iteration.
  change (uniform_policy (reflag f environment))
    with (uniform_policy environment).
  apply for_range_return_ext. intros p. apply improvement_round_reflag.
Qed.

(** *** The rows of the policy *)

Lemma improve_state_rows environment V discount_factor policy b state
    policy1 b1 :
  policy_rows environment policy ->
  improve_state environment V discount_factor (policy, b) state
    = Returns (policy1, b1) ->
  policy_rows environment policy1.
Proof.
  unfold improve_state. intros [Hlen Hrows] H.
  split_bind H. split_bind H. split_bind H. split_bind H.
  destruct (a0 =? a2)%nat; [by injection H as <- <-|].
  split_bind H. injection H as <- <-.
  unfold eye_row in Hstep3.
  destruct (Nat.ltb_spec a2 (nA environment)) as [Hlt|]; [|discriminate].
  injection Hstep3 as <-.
  split; [by rewrite length_insert|].
  intros s row Hs.
  destruct (decide (s = state)) as [->|Hne].
  - apply list_lookup_insert_Some in Hs as [(_ & <- & _)|[? _]]; [|done].
    right. by exists a2.
  - rewrite list_lookup_insert_ne in Hs by done. eauto.
Qed.

Lemma improvement_round_rows environment discount_factor policy r :
  policy_rows environment policy ->
  improvement_round environment discount_factor policy = Returns r ->
  match r with
  | inl policy' => policy_rows environment policy'
  | inr (policy', _) => policy_rows environment policy'
  end.
Proof.
  unfold improvement_round. intros Hp H.
  split_bind H. split_bind H. destruct a0 as [p1 b1].
  assert (Hp1 : policy_rows environment p1).
  { eapply (for_each_invariant _
              (fun acc => policy_rows environment acc.1)) in Hstep0;
      [exact Hstep0| |exact Hp].
    intros [p0 b0] x [p2 b2] _ H0 H2. simpl in *.
    eapply improve_state_rows; eauto. }
  destruct b1; by injection H as <-.
Qed.




Lemma policy_iteration_policy_rows environment discount_factor
    max_iterations policy V :
  policy_iteration environment discount_factor max_iterations
    = Returns (Some (policy, V)) ->
  policy_rows environment policy.
Proof.
  unfold policy_iteration. intros H.
  apply for_range_return_some in H as (k & p0 & _ & Hp & Hb).
  assert (H0 : policy_rows environment p0).
  { eapply (after_passes_invariant _ (policy_rows environment));
      [| |exact Hp].
    - intros p p' Hrows Hr.
      exact (improvement_round_rows _ _ _ _ Hrows Hr).
    - split; [apply length_replicate|].
      intros s row Hs. apply lookup_replicate in Hs as [-> _]. by left. }
  exact (improvement_round_rows _ _ _ _ H0 Hb).
Qed.


(** *** The lookahead *)

Lemma lookahead_records V discount_factor action trs :
  forall av av' x,
    for_each trs (lookahead_outcome (Some V) discount_factor action) av
      = Returns av' ->
    av !! action = Some x ->
    av' = <[action := foldl (expected_step V discount_factor) x trs]> av
    /\ Forall (fun tr => (t_next tr < length V)%nat) trs.
Proof.
  induction trs as [|tr trs IH]; intros av av' x Hrun Hx; simpl in Hrun.
  - injection Hrun as <-. split; [|constructor].
    simpl. symmetry. by apply list_insert_id.
  - split_bind Hrun. unfold lookahead_outcome in Hstep.
    split_bind Hstep. split_bind Hstep. injection Hstep as <-.
    simpl in Hstep0.
    apply UpdateFacts.subscript_returns in Hstep0, Hstep1.
    assert (a1 = x) as -> by congruence.
    pose proof (lookup_lt_Some _ _ _ Hx) as Hlt.
    eapply IH in Hrun as [-> Hall];
      [|by apply list_lookup_insert_eq].
    split.
    + rewrite list_insert_insert_eq. cbn [foldl].
      assert (E : expected_step V discount_factor x tr
                  = x + t_prob tr * (t_reward tr + discount_factor * a0))
        by (unfold expected_step; by rewrite Hstep0).
      by rewrite E.
    + constructor; [by eapply lookup_lt_Some | done].
Qed.

Lemma lookahead_loop environment state V discount_factor n :
  forall a av av',
    for_each (seq a n)
      (fun action_values action =>
         Ps ← dict_get (P environment) state;
         trs ← dict_get Ps action;
         for_each trs (lookahead_outcome (Some V) discount_factor action)
           action_values)
      av = Returns av' ->
    (forall j, (a <= j < a + n)%nat -> av !! j = Some 0) ->
    length av' = length av
    /\ (forall j, ~ (a <= j < a + n)%nat -> av' !! j = av !! j)
    /\ (forall j, (a <= j < a + n)%nat ->
          exists Ps trs,
            P environment !! state = Some Ps /\ Ps !! j = Some trs
            /\ Forall (fun tr => (t_next tr < length V)%nat) trs
            /\ av' !! j = Some (expected_value V discount_factor trs)).
Proof.
  induction n as [|n IH]; intros a av av' Hrun Hzero; simpl in Hrun.
  - injection Hrun as <-. repeat split. intros j Hj. lia.
  - apply obind_returns in Hrun as (av1 & Hstep & Hrun).
    cbv beta in Hstep.
    destruct (proj1 (obind_returns _ _ _) Hstep) as (Ps & HPs & Hstep1).
    destruct (proj1 (obind_returns _ _ _) Hstep1) as (trs & Htrs & Hrec).
    clear Hstep Hstep1.
    unfold dict_get in HPs, Htrs.
    destruct (P environment !! state) as [Ps'|] eqn:EP; [|discriminate].
    injection HPs as ->.
    destruct (Ps !! a) as [trs'|] eqn:Et; [|discriminate].
    injection Htrs as ->.
    apply (lookahead_records V discount_factor a trs av av1 0) in Hrec
      as [-> Hall]; [|apply Hzero; lia].
    pose proof (lookup_lt_Some _ _ _ (Hzero a ltac:(lia))) as Hlt.
    apply IH in Hrun as (Hlen & Hout & Hin).
    2:{ intros j Hj. rewrite list_lookup_insert_ne by lia.
        apply Hzero. lia. }
    rewrite length_insert in Hlen.
    split; [done|]. split.
    + intros j Hj. rewrite Hout by lia.
      apply list_lookup_insert_ne. lia.
    + intros j Hj. destruct (decide (j = a)) as [->|Hne].
      * exists Ps, trs. repeat split; [done..|].
        rewrite Hout by lia. by apply list_lookup_insert_eq.
      * apply Hin. lia.
Qed.

(** X6: when the lookahead returns, it returns one value per action,
    and the value of an action is the sum, over the records of that
    action in the state, of [probability * (reward + discount_factor *
    V[next_state])], every [next_state] being an index of [V]. *)
Theorem one_step_lookahead_values environment state V discount_factor av :
  one_step_lookahead environment state (Some V) discount_factor = Returns av ->
  length av = nA environment
  /\ forall action, (action < nA environment)%nat ->
       exists Ps trs,
         P environment !! state = Some Ps /\ Ps !! action = Some trs
         /\ Forall (fun tr => (t_next tr < length V)%nat) trs
         /\ av !! action = Some (expected_value V discount_factor trs).
Proof.
  unfold one_step_lookahead. intros H.
  apply lookahead_loop in H as (Hlen & _ & Hin).
  - split; [by rewrite Hlen; apply length_replicate|].
    intros action Ha. apply Hin. lia.
  - intros j Hj. apply lookup_replicate. split; [done | lia].
Qed.

(** *** The solver on the two-armed table *)

Lemma two_armed_sweep_returns :
  sweep (uniform_policy two_armed) two_armed 1 (zeros 2)
  = Returns (fst two_armed_swept, snd two_armed_swept).
Proof. vm_compute. reflexivity. Qed.

Lemma two_armed_evaluation_returns :
  policy_evaluation (uniform_policy two_armed) two_armed 1 default_theta 5
  = Returns (Some two_armed_value).
Proof. vm_compute. reflexivity. Qed.

Lemma two_armed_iteration_returns :
  policy_iteration two_armed 1 5
  = Returns (Some (fst two_armed_solution, snd two_armed_solution)).
Proof. lazy. reflexivity. Qed.

Lemma two_armed_lookahead_returns :
  one_step_lookahead two_armed 0 (Some two_armed_value) 1
  = Returns two_armed_lookahead.
Proof. vm_compute. reflexivity. Qed.

Lemma sweep_in_place_witness :
  exists v,
    state_backup (uniform_policy two_armed) two_armed 1
      (take 1 (fst two_armed_swept) ++ drop 1 (zeros 2)) 1 = Returns v
    /\ fst two_armed_swept !! 1%nat = Some v.
Proof.
  assert (Hs : (1 < nS two_armed)%nat) by (simpl; lia).
  exact (sweep_in_place _ _ _ _ _ _ 1%nat two_armed_sweep_returns Hs).
Defined.

Lemma sweep_delta_bounds_witness :
  length (fst two_armed_swept) = length (zeros 2)
  /\ 0 <= snd two_armed_swept
  /\ (forall s x y,
        (s < nS two_armed)%nat ->
        zeros 2 !! s = Some x -> fst two_armed_swept !! s = Some y ->
        Qabs (x - y) <= snd two_armed_swept).
Proof.
  exact (sweep_delta_bounds _ _ _ _ _ _ two_armed_sweep_returns).
Defined.

Lemma policy_evaluation_converged_witness :
  length two_armed_value = nS two_armed
  /\ exists V delta,
       sweep (uniform_policy two_armed) two_armed 1 V
       = Returns (two_armed_value, delta)
       /\ length V = nS two_armed
       /\ delta < default_theta
       /\ (forall s x y, V !! s = Some x -> two_armed_value !! s = Some y ->
             Qabs (x - y) < default_theta).
Proof.
  exact (policy_evaluation_converged _ _ _ _ _ _
           two_armed_evaluation_returns).
Defined.


Lemma one_step_lookahead_values_witness :
  length two_armed_lookahead = nA two_armed
  /\ forall action, (action < nA two_armed)%nat ->
       exists Ps trs,
         P two_armed !! 0%nat = Some Ps /\ Ps !! action = Some trs
         /\ Forall (fun tr => (t_next tr < length two_armed_value)%nat) trs
         /\ two_armed_lookahead !! action
            = Some (expected_value two_armed_value 1 trs).
Proof.
  exact (one_step_lookahead_values _ _ _ _ _ two_armed_lookahead_returns).
Defined.

End SolverFacts.

(** ** More on episodes and training *)

Module EpisodeExtras.

Import MonteCarlo UpdateFacts EpisodeFacts TrainingFacts.

Lemma rewards_app (a b : list event) : rewards (a ++ b) = rewards a ++ rewards b.
Proof.
  induction a as [|[p e| |x y z d] a IH]; simpl; [done|done|done|].
  by rewrite IH.
Qed.

Lemma average_between (v r o cnt : Q) :
  0 <= cnt -> 1 <= o ->
  (v <= r -> v <= v + (o / (cnt + o)) * (r - v)
             /\ v + (o / (cnt + o)) * (r - v) <= r)
  /\ (r <= v -> r <= v + (o / (cnt + o)) * (r - v)
                /\ v + (o / (cnt + o)) * (r - v) <= v).
Proof.
  intros Hc Ho.
  assert (HD : 0 < cnt + o) by lra.
  set (w := o / (cnt + o)).
  assert (Hw0 : 0 <= w) by (unfold w; apply Qle_shift_div_l; lra).
  assert (Hw1 : w <= 1) by (unfold w; apply Qle_shift_div_r; lra).
  split; intros Hv; split; nra.
Qed.

Lemma frac_mono (a b : Q) :
  1 <= a -> a <= b ->
  a / (1 + a) <= b / (1 + b) /\ 1 # 2 <= a / (1 + a) /\ a / (1 + a) < 1.
Proof.
  intros Ha Hab.
  assert (Hb : 1 <= b) by lra.
  repeat split.
  - apply Qle_shift_div_l; [lra|].
    assert (E : a / (1 + a) * (1 + b) == (a * (1 + b)) / (1 + a))
      by (field; lra).
    rewrite E. apply Qle_shift_div_r; [lra|]. nra.
  - apply Qle_shift_div_l; lra.
  - apply Qlt_shift_div_r; lra.
Qed.

Lemma ratio_nonneg (i n : nat) :
  0 <= inject_Z (Z.of_nat i) / inject_Z (Z.of_nat n).
Proof.
  apply Qmult_le_0_compat.
  - change 0 with (inject_Z 0). rewrite <- Zle_Qle. lia.
  - apply Qinv_le_0_compat. change 0 with (inject_Z 0).
    rewrite <- Zle_Qle. lia.
Qed.

Lemma ratio_mono (i j n : nat) :
  (i <= j)%nat ->
  inject_Z (Z.of_nat i) / inject_Z (Z.of_nat n)
  <= inject_Z (Z.of_nat j) / inject_Z (Z.of_nat n).
Proof.
  intros H. apply Qmult_le_compat_r.
  - rewrite <- Zle_Qle. lia.
  - apply Qinv_le_0_compat. change 0 with (inject_Z 0).
    rewrite <- Zle_Qle. lia.
Qed.



Section WithKernel.

Context `{K : Kernel}.

Local Open Scope M_scope.

Lemma while_terminal fuel m p eps :
  forall l w l' w',
    while_not_done fuel m p eps l w = (Returns l', w') ->
    exists steps,
      w_events w' = w_events w ++ steps
      /\ if done l then steps = []
         else exists pre a s r,
                steps = pre ++ [EvStep a s r true] /\ Forall open_step pre.
Proof.
  induction fuel as [|fuel IH]; intros l w l' w'; simpl.
  - destruct (done l); [|discriminate].
    intros [= <- <-]. exists []. by rewrite app_nil_r.
  - destruct (done l) eqn:Hd.
    + intros [= <- <-]. exists []. by rewrite app_nil_r.
    + intros H. apply bind_returns in H as (l1 & w1 & H1 & H).
      apply loop_body_returns in H1 as (a & s' & r & d & occ' & _ & -> & E1).
      apply IH in H as (steps & E & Hsteps). simpl in Hsteps.
      exists (EvStep a s' r d :: steps).
      split; [by rewrite E, E1, <- app_assoc|].
      destruct d.
      * subst steps. exists [], a, s', r. by split.
      * destruct Hsteps as (pre & a1 & s1 & r1 & -> & Hpre).
        exists (EvStep a s' r false :: pre), a1, s1, r1.
        split; [done|]. by constructor.
Qed.

(** X7: a finished episode makes at least one step; it ends with the
    first step the environment reports as terminal, and the step count
    returned is the number of steps made. *)
Theorem episode_ends_at_first_terminal m p eps w m' r n w' :
  one_iteration m p eps w = (Returns (m', r, n), w') ->
  exists pre a s x,
    episode w w' = EvEpisode p eps :: EvReset :: pre ++ [EvStep a s x true]
    /\ Forall open_step pre
    /\ n = S (length pre).
Proof.
  intros Hrun.
  pose proof (one_iteration_returns _ _ _ _ _ _ _ _ Hrun)
    as (steps & occ & E & _ & Hn & _).
  unfold one_iteration in Hrun.
  apply bind_returns in Hrun as ([] & w1 & H1 & H).
  apply bind_returns in H as (l0 & w2 & H2 & H).
  apply bind_returns in H as (l & w3 & H3 & H).
  apply bind_returns in H as (m1 & w4 & [= _ <-] & [= _ _ _ <-]).
  injection H1 as <-. injection H2 as <- <-.
  apply while_terminal in H3 as (steps' & E3 & Hshape). simpl in *.
  destruct Hshape as (pre & a & s & x & -> & Hpre).
  assert (E' : episode w w3
               = EvEpisode p eps :: EvReset :: pre ++ [EvStep a s x true]).
  { apply episode_app. rewrite E3. by rewrite <- !app_assoc. }
  exists pre, a, s, x. split; [done|]. split; [done|].
  rewrite E in E'. injection E' as ->.
  rewrite Hn, length_app. simpl. lia.
Qed.


Lemma additive_unit_rewards : additive unit_rewards.
Proof.
  split; [constructor|]. unfold unit_rewards. intros a b Ha Hb.
  rewrite rewards_app. by apply Forall_app.
Qed.

Lemma silent_unit_rewards evs : silent evs -> unit_rewards evs.
Proof. intros ->. constructor. Qed.

Lemma loop_body_unit_rewards m p eps l :
  (forall e a, 0 <= step_reward e a /\ step_reward e a <= 1) ->
  appends unit_rewards (loop_body m p eps l).
Proof.
  intros Henv. unfold loop_body.
  apply appends_bind; [apply additive_unit_rewards| |intros act].
  { eapply appends_weaken;
      [apply silent_unit_rewards | apply choose_action_silent]. }
  apply appends_bind; [apply additive_unit_rewards| |intros a].
  { eapply appends_weaken;
      [apply silent_unit_rewards | apply read_local_silent]. }
  apply appends_bind; [apply additive_unit_rewards| |intros occ].
  { apply appends_lift, additive_unit_rewards. }
  apply appends_bind; [apply additive_unit_rewards| |intros [[s' r] d]].
  - intros w o w'. unfold step_env.
    specialize (Henv (w_env w) a). unfold step_reward in Henv.
    destruct (env_step (w_env w) a) as [e' [[s1 r1] d1]].
    intros [= <- <-]. eexists. split; [reflexivity|].
    unfold unit_rewards. simpl. constructor; [exact Henv | constructor].
  - apply appends_ret, additive_unit_rewards.
Qed.

Lemma while_unit_rewards fuel m p eps :
  (forall e a, 0 <= step_reward e a /\ step_reward e a <= 1) ->
  forall l, appends unit_rewards (while_not_done fuel m p eps l).
Proof.
  intros Henv. induction fuel as [|fuel IH]; intros l; simpl.
  - destruct (done l); [apply appends_ret | apply appends_lift];
      apply additive_unit_rewards.
  - destruct (done l); [apply appends_ret, additive_unit_rewards|].
    apply appends_bind;
      auto using additive_unit_rewards, loop_body_unit_rewards.
Qed.

Lemma episode_reward_in_unit m p eps w m' r n w' :
  (forall e a, 0 <= step_reward e a /\ step_reward e a <= 1) ->
  one_iteration m p eps w = (Returns (m', r, n), w') ->
  0 <= r /\ r <= 1.
Proof.
  intros Henv Hrun.
  pose proof (one_iteration_returns _ _ _ _ _ _ _ _ Hrun)
    as (steps & occ & E & _ & _ & -> & _).
  assert (Hsteps : unit_rewards steps).
  { unfold one_iteration in Hrun.
    apply bind_returns in Hrun as ([] & w1 & H1 & H).
    apply bind_returns in H as (l0 & w2 & H2 & H).
    apply bind_returns in H as (l & w3 & H3 & H).
    apply bind_returns in H as (m1 & w4 & [= _ <-] & [= _ _ _ <-]).
    injection H1 as <-. injection H2 as <- <-.
    destruct (while_unit_rewards _ _ _ _ Henv _ _ _ _ H3) as (evs & E3 & Hevs).
    simpl in E3.
    assert (E' : episode w w3 = EvEpisode p eps :: EvReset :: evs).
    { apply episode_app. rewrite E3. by rewrite <- !app_assoc. }
    rewrite E in E'. by injection E' as ->. }
  split; [apply foldl_pymax_ge_init|].
  destruct (foldl_pymax_in (rewards steps) 0) as [->|Hin]; [done|].
  unfold unit_rewards in Hsteps. rewrite List.Forall_forall in Hsteps.
  by apply Hsteps in Hin as [_ ?].
Qed.

Lemma slot_domain m p eps w m' r n w' i j c' :
  one_iteration m p eps w = (Returns (m', r, n), w') ->
  slot m' i j = Some c' -> is_Some (slot m i j).
Proof.
  intros Hrun Hc. unfold slot in *.
  pose proof (one_iteration_dims _ _ _ _ _ _ _ _ Hrun) as Hd.
  destruct (m' !! i) as [row'|] eqn:E'; [|done].
  assert (H1 : map length m' !! i = Some (length row'))
    by (by rewrite list_lookup_fmap, E').
  rewrite Hd, list_lookup_fmap in H1.
  destruct (m !! i) as [row|]; [|done]. simpl in H1.
  apply lookup_lt_is_Some. injection H1 as ->.
  by eapply lookup_lt_Some.
Qed.

(** X9: in an environment whose steps all pay a reward between 0 and 1,
    every running average of a training run stays between 0 and 1. *)
Theorem estimates_stay_in_unit_interval m i j c :
  (forall e a, 0 <= step_reward e a /\ step_reward e a <= 1) ->
  reachable m ->
  slot m i j = Some c ->
  0 <= value c /\ value c <= 1.
Proof.
  intros Henv Hm. revert i j c.
  induction Hm as [|m p eps w m' r n w' Hm IH Hrun]; intros i j c Hc.
  - unfold slot, initial_sa_valmat in Hc.
    destruct (replicate 16 _ !! i) as [row|] eqn:E; [|done].
    apply lookup_replicate in E as [-> _].
    apply lookup_replicate in Hc as [-> _]. simpl. split; lra.
  - pose proof (reachable_rectangular _ Hm) as Hrect.
    destruct (slot_domain _ _ _ _ _ _ _ _ _ _ _ Hrun Hc) as [c0 Hc0].
    pose proof (IH _ _ _ Hc0) as [Hv0 Hv1].
    pose proof (reachable_counts _ Hm _ _ _ Hc0) as Hcount.
    pose proof (episode_reward_in_unit _ _ _ _ _ _ _ _ Henv Hrun) as [Hr0 Hr1].
    rewrite (one_iteration_slot _ _ _ _ _ _ _ _ _ _ _ Hrun Hrect Hc0) in Hc.
    cbv zeta in Hc.
    destruct (Nat.leb_spec 1 (occurrences i j 0 (episode w w'))) as [Ho|_];
      injection Hc as <-; [|done].
    unfold update_cell, divisor. cbn [value count].
    destruct (average_between (value c0) r _ (count c0) Hcount
                (of_count_ge_1 _ Ho)) as [Hup Hdown].
    destruct (Qlt_le_dec r (value c0)) as [Hlt|Hle].
    + destruct (Hdown (Qlt_le_weak _ _ Hlt)) as [H1 H2]. split; lra.
    + destruct (Hup Hle) as [H1 H2]. split; lra.
Qed.

Lemma bind_step {A B} (m : M A) (k : A -> M B) (w w1 : world) (a : A) :
  m w = (Returns a, w1) -> bind m k w = k a w1.
Proof. unfold bind. by intros ->. Qed.

(** X10: how [train_and_test] ends once its warm-up and training loops
    have returned.  With [test_epochs] 0 the return statement fails, on
    the undefined name [test_win] or, if the kernel binds it, on the
    division by [test_epochs].  Otherwise the first test episode is
    played in full and the call fails right after it, on the local
    [wins] that was never assigned. *)
Theorem test_phase_fails policy train_epochs test_epochs w st1 w1 st2 w2 :
  warm_up (initial_sa_valmat, 0) w = (Returns st1, w1) ->
  training policy train_epochs st1 w1 = (Returns st2, w2) ->
  (test_epochs = 0%nat ->
   train_and_test policy train_epochs test_epochs w
   = (Raises (match test_win with
              | Some _ => ZeroDivisionError
              | None => NameError
              end), w2))
  /\ (forall m r n w3,
        (1 <= test_epochs)%nat ->
        one_iteration (fst st2) "tiny_epsilon" 0 w2
          = (Returns (m, r, n), w3) ->
        train_and_test policy train_epochs test_epochs w
        = (Raises UnboundLocalError, w3)).
Proof.
  intros H1 H2. destruct st1 as [m1 tw1]. destruct st2 as [m2 tw2].
  split.
  - intros ->. unfold train_and_test. cbv zeta.
    rewrite (bind_step _ _ _ _ _ H1). rewrite (bind_step _ _ _ _ _ H2).
    unfold testing. simpl for_eachM.
    unfold return_statement, bind, ret, read_global, lift, pydiv.
    by destruct test_win.
  - intros m r n w3 Hte H3. destruct test_epochs as [|te]; [lia|].
    unfold train_and_test. cbv zeta.
    rewrite (bind_step _ _ _ _ _ H1). rewrite (bind_step _ _ _ _ _ H2).
    unfold testing. rewrite <- cons_seq. cbn [for_eachM].
    simpl fst in H3. unfold bind at 1 2 3. rewrite H3. reflexivity.
Qed.

(** X11: with an exponential that is monotone and at least 1 from 0 on,
    the exploration rate of the training loop never grows from one
    episode to a later one, and lies above 0 and at most at 1/4. *)
Theorem epsilon_schedule_decays i j train_epochs :
  (forall x, 0 <= x -> 1 <= np_exp x) ->
  (forall x y, x <= y -> np_exp x <= np_exp y) ->
  (i <= j)%nat ->
  epsilon_schedule j train_epochs <= epsilon_schedule i train_epochs
  /\ 0 < epsilon_schedule i train_epochs
  /\ epsilon_schedule i train_epochs <= 1 # 4.
Proof.
  intros Hone Hmono Hij. unfold epsilon_schedule. cbv zeta.
  set (x := inject_Z (Z.of_nat i) / inject_Z (Z.of_nat train_epochs)).
  set (y := inject_Z (Z.of_nat j) / inject_Z (Z.of_nat train_epochs)).
  assert (Hx : 0 <= x) by apply ratio_nonneg.
  assert (Hxy : x <= y) by by apply ratio_mono.
  destruct (frac_mono (np_exp x) (np_exp y) (Hone x Hx) (Hmono x y Hxy))
    as (Hle & Hhalf & Hlt).
  set (u := np_exp x / (1 + np_exp x)) in *.
  set (v := np_exp y / (1 + np_exp y)) in *.
  assert (Eu : u / 2 == u * (1 # 2)) by (unfold Qdiv; reflexivity).
  assert (Ev : v / 2 == v * (1 # 2)) by (unfold Qdiv; reflexivity).
  rewrite Eu, Ev. repeat split; lra.
Qed.


Lemma loop_body_random m1 m2 e1 e2 l w :
  loop_body m1 "random" e1 l w = loop_body m2 "random" e2 l w.
Proof. reflexivity. Qed.

(** X13: under the random policy the loop of an episode reads neither
    the estimates nor epsilon: it runs the same with any two matrices
    and any two rates. *)
Theorem random_policy_ignores_estimates fuel m1 m2 e1 e2 l w :
  while_not_done fuel m1 "random" e1 l w
  = while_not_done fuel m2 "random" e2 l w.
Proof.
  revert l w. induction fuel as [|fuel IH]; intros l w; simpl; [done|].
  destruct (done l); [done|].
  unfold bind. rewrite (loop_body_random m1 m2 e1 e2).
  destruct (loop_body m2 "random" e2 l w) as [[l1|e|] w1]; [|done|done].
  apply IH.
Qed.

End WithKernel.

(** *** Episodes of the ring world *)

Lemma ring_rewards_in_unit (e : @Env ring_world) (a : nat) :
  0 <= @step_reward ring_world e a /\ @step_reward ring_world e a <= 1.
Proof.
  unfold step_reward. simpl. unfold ring_step.
  destruct (_ =? 3)%nat; split; by vm_compute.
Defined.

Lemma demo_matrix_reachable : @reachable ring_world demo_matrix.
Proof.
  exact (reachable_episode _ _ _ _ _ _ _ _ reachable_initial
           demo_run_returns).
Qed.

Lemma tested_run_eq :
  @one_iteration ring_world (fst trained) "tiny_epsilon" 0 (snd trained_run)
  = (Returns (fst (fst tested), snd (fst tested), snd tested),
     snd tested_run).
Proof. vm_compute. reflexivity. Qed.

Lemma episode_ends_at_first_terminal_witness :
  exists pre a s x,
    episode demo_world demo_world'
    = EvEpisode "random" default_epsilon :: EvReset
        :: pre ++ [EvStep a s x true]
    /\ Forall open_step pre
    /\ 3%nat = S (length pre).
Proof.
  exact (episode_ends_at_first_terminal (K := ring_world) _ _ _ _ _ _ _ _
           demo_run_returns).
Defined.


Lemma estimates_stay_in_unit_interval_witness :
  slot demo_matrix 0 3
  = Some (update_cell (of_count 1) 1 (Cell (0 + (1 # 100)) 0))
  /\ 0 <= value (update_cell (of_count 1) 1 (Cell (0 + (1 # 100)) 0))
  /\ value (update_cell (of_count 1) 1 (Cell (0 + (1 # 100)) 0)) <= 1.
Proof.
  assert (Hc : slot demo_matrix 0 3
               = Some (update_cell (of_count 1) 1 (Cell (0 + (1 # 100)) 0)))
    by (vm_compute; reflexivity).
  split; [exact Hc|].
  exact (estimates_stay_in_unit_interval (K := ring_world) demo_matrix
           0%nat 3%nat _ ring_rewards_in_unit demo_matrix_reachable Hc).
Defined.

Lemma test_phase_fails_witness :
  @train_and_test ring_world "random" 1 1 training_world
  = (Raises UnboundLocalError, snd tested_run).
Proof.
  assert (Hte : (1 <= 1)%nat) by lia.
  exact (proj2 (test_phase_fails (K := ring_world) "random" 1 1 _ _ _ _ _
                  warm_up_run_eq trained_run_eq)
           _ _ _ _ Hte tested_run_eq).
Defined.

Lemma epsilon_schedule_decays_witness :
  @epsilon_schedule ring_world 1 2 <= @epsilon_schedule ring_world 0 2
  /\ 0 < @epsilon_schedule ring_world 0 2
  /\ @epsilon_schedule ring_world 0 2 <= 1 # 4.
Proof.
  assert (Hone : forall x, 0 <= x -> 1 <= @np_exp ring_world x)
    by (intros x Hx; simpl; lra).
  assert (Hmono : forall x y, x <= y
                    -> @np_exp ring_world x <= @np_exp ring_world y)
    by (intros x y Hxy; simpl; lra).
  assert (Hij : (0 <= 1)%nat) by lia.
  exact (epsilon_schedule_decays (K := ring_world) 0 1 2 Hone Hmono Hij).
Defined.


End EpisodeExtras.

(** ** Playing a policy *)

Module SimulationFacts.

Import PolicyIteration Simulation.

Local Open Scope outcome_scope.

Section WithGym.

Context `{G : Gym}.

Lemma play_step_returns policy p p' :
  play_step policy p = Returns p' ->
  exists row action,
    subscript policy (state p) = Returns row
    /\ argmax row = Returns action
    /\ let g := fst (gym_step (gym p) action) in
       let r := fst (step_result (gym p) action) in
       let d := snd (step_result (gym p) action) in
       terminated p' = d
       /\ total_reward p' = total_reward p + r
       /\ wins p' = (if d && Qeq_bool r 1 then S (wins p) else wins p).
Proof.
  unfold play_step, step_result. intros H.
  apply obind_returns in H as (row & Hrow & H).
  apply obind_returns in H as (action & Hact & H).
  exists row, action. split; [done|]. split; [done|].
  destruct (gym_step (gym p) action) as [g [[s r] d]].
  by injection H as <-.
Qed.

Lemma while_not_terminated_tally fuel policy :
  forall p p',
    while_not_terminated fuel policy p = Returns p' ->
    terminated p' = true
    /\ if terminated p then p' = p
       else (wins p <= wins p' <= S (wins p))%nat.
Proof.
  induction fuel as [|fuel IH]; intros p p'; simpl.
  - destruct (terminated p) eqn:E; [|discriminate]. by intros [= <-].
  - destruct (terminated p) eqn:E; [by intros [= <-]|].
    intros H. apply obind_returns in H as (p1 & H1 & H).
    apply play_step_returns in H1
      as (row & action & _ & _ & Hd & _ & Hw). cbv zeta in Hd, Hw.
    apply IH in H as [Hend Hrest]. split; [done|].
    destruct (terminated p1) eqn:E1.
    + subst p'. rewrite Hw. destruct (_ && _); lia.
    + rewrite <- Hd in Hw. simpl in Hw. lia.
Qed.

Lemma play_episode_tally fuel policy p episode p' :
  play_episode fuel policy p episode = Returns p' ->
  (wins p <= wins p' <= S (wins p))%nat.
Proof.
  unfold play_episode. destruct (gym_reset (gym p)) as [g s].
  intros H. by apply while_not_terminated_tally in H as [_ H].
Qed.

Lemma for_each_tally fuel policy (xs : list nat) :
  forall p p',
    for_each xs (play_episode fuel policy) p = Returns p' ->
    (wins p <= wins p' <= wins p + length xs)%nat.
Proof.
  induction xs as [|x xs IH]; simpl; intros p p' H.
  - injection H as <-. lia.
  - apply obind_returns in H as (p1 & H1 & H).
    apply play_episode_tally in H1. apply IH in H. lia.
Qed.

(** X14: [play_episodes] for any integer [n_episodes].  Where it
    returns, [n_episodes] is not 0, the wins it reports are at most the
    number of episodes played, which is [n_episodes] or, for a negative
    one, 0, and the average is the total reward over [n_episodes].
    With [n_episodes] 0 the division raises; with a negative
    [n_episodes] no episode is played and the call returns no win, no
    reward and [0 / n_episodes]. *)
Theorem play_episodes_tally fuel environment n_episodes policy :
  (forall w total average,
     play_episodes fuel environment n_episodes policy
       = Returns (w, total, average) ->
     n_episodes <> 0%Z
     /\ (Z.of_nat w <= Z.max 0 n_episodes)%Z
     /\ average = total / inject_Z n_episodes)
  /\ (n_episodes = 0%Z ->
      play_episodes fuel environment n_episodes policy
      = Raises ZeroDivisionError)
  /\ ((n_episodes < 0)%Z ->
      play_episodes fuel environment n_episodes policy
      = Returns (0%nat, 0, 0 / inject_Z n_episodes)).
Proof.
  unfold play_episodes, range, truediv. cbv zeta. split; [|split].
  - intros w total average H.
    apply obind_returns in H as (p & Hp & H).
    apply obind_returns in H as (a & Ha & [= <- <- <-]).
    destruct (Z.eqb_spec n_episodes 0) as [|Hn]; [discriminate|].
    injection Ha as <-.
    apply for_each_tally in Hp. rewrite length_seq in Hp. simpl in Hp.
    split; [done|]. split; [lia|done].
  - intros ->. reflexivity.
  - intros Hneg. rewrite Z2Nat.nonpos by lia. simpl.
    destruct (Z.eqb_spec n_episodes 0) as [|Hn]; [lia|]. reflexivity.
Qed.

Lemma while_not_terminated_rewards fuel policy :
  sparse_rewards ->
  forall p p',
    while_not_terminated fuel policy p = Returns p' ->
    total_reward p == inject_Z (Z.of_nat (wins p)) ->
    total_reward p' == inject_Z (Z.of_nat (wins p')).
Proof.
  intros Hsparse.
  induction fuel as [|fuel IH]; intros p p'; simpl.
  - destruct (terminated p); [|discriminate]. by intros [= <-].
  - destruct (terminated p); [by intros [= <-]|].
    intros H Hinv. apply obind_returns in H as (p1 & H1 & H).
    apply (IH _ _ H).
    apply play_step_returns in H1
      as (row & action & _ & _ & _ & Ht & Hw). cbv zeta in Ht, Hw.
    rewrite Ht, Hw, Hinv.
    destruct (Hsparse (gym p) action) as [Hr|[Hr ->]].
    + assert (E : Qeq_bool (fst (step_result (gym p) action)) 1 = false).
      { apply not_true_is_false. intros E. apply Qeq_bool_iff in E.
        rewrite Hr in E. discriminate E. }
      rewrite E, andb_false_r, Hr. ring.
    + assert (E : Qeq_bool (fst (step_result (gym p) action)) 1 = true)
        by by apply Qeq_bool_iff.
      rewrite E, Hr. simpl andb. cbv iota.
      rewrite Nat2Z.inj_succ. unfold Z.succ. rewrite inject_Z_plus. ring.
Qed.

(** X15: in an environment that pays 1 only on a step that ends the
    episode and 0 otherwise, the total reward [play_episodes] returns is
    the number of wins it returns. *)
Theorem play_episodes_wins_are_rewards fuel environment n_episodes policy
    w total average :
  sparse_rewards ->
  play_episodes fuel environment n_episodes policy
    = Returns (w, total, average) ->
  total == inject_Z (Z.of_nat w).
Proof.
  unfold play_episodes. cbv zeta. intros Hsparse H.
  apply obind_returns in H as (p & Hp & H).
  apply obind_returns in H as (a & Ha & [= <- <- <-]).
  revert Hp.
  apply (for_each_invariant (play_episode fuel policy)
           (fun p => total_reward p == inject_Z (Z.of_nat (wins p)))).
  - intros s x s' _ Hs. unfold play_episode.
    destruct (gym_reset (gym s)) as [g st]. intros Hrun.
    by apply (while_not_terminated_rewards _ _ Hsparse _ _ Hrun).
  - reflexivity.
Qed.

Lemma while_not_terminated_fuel policy fuel fuel' :
  (fuel <= fuel')%nat ->
  forall p o,
    while_not_terminated fuel policy p = o -> o <> Blocked ->
    while_not_terminated fuel' policy p = o.
Proof.
  revert fuel'. induction fuel as [|fuel IH]; intros fuel' Hle p o; simpl.
  - destruct (terminated p) eqn:E; [|by intros <-].
    intros <- _. destruct fuel'; simpl; by rewrite E.
  - destruct fuel' as [|fuel']; [lia|]. simpl.
    destruct (terminated p); [done|].
    destruct (play_step policy p) as [p1| |]; simpl; [|done|done].
    apply IH. lia.
Qed.

Lemma for_each_fuel policy fuel fuel' (xs : list nat) :
  (fuel <= fuel')%nat ->
  forall p o,
    for_each xs (play_episode fuel policy) p = o -> o <> Blocked ->
    for_each xs (play_episode fuel' policy) p = o.
Proof.
  intros Hle. induction xs as [|x xs IH]; simpl; intros p o; [done|].
  intros H Ho.
  destruct (play_episode fuel policy p x) as [p1| |] eqn:E.
  - simpl in H.
    assert (E' : play_episode fuel' policy p x = Returns p1).
    { unfold play_episode in *. destruct (gym_reset (gym p)) as [g s].
      by apply (while_not_terminated_fuel _ _ _ Hle _ _ E). }
    rewrite E'. simpl. by apply IH.
  - simpl in H.
    assert (E' : play_episode fuel' policy p x = Raises e).
    { unfold play_episode in *. destruct (gym_reset (gym p)) as [g s].
      by apply (while_not_terminated_fuel _ _ _ Hle _ _ E). }
    by rewrite E'.
  - simpl in H. by subst o.
Qed.

(** The bound on the steps of an episode only decides whether the loop
    is followed to its end: more steps change no outcome. *)
Lemma play_episodes_fuel fuel fuel' environment n_episodes policy o :
  (fuel <= fuel')%nat ->
  play_episodes fuel environment n_episodes policy = o ->
  o <> Blocked ->
  play_episodes fuel' environment n_episodes policy = o.
Proof.
  unfold play_episodes. cbv zeta. intros Hle H Ho.
  set (start := Play environment false 0 0 0) in *.
  destruct (for_each (range n_episodes) (play_episode fuel policy) start)
    as [p| |] eqn:E.
  - by rewrite (for_each_fuel _ _ _ _ Hle _ _ E).
  - by rewrite (for_each_fuel _ _ _ _ Hle _ _ E).
  - simpl in H. by subst o.
Qed.

End WithGym.

Lemma lookup_one_hot (n k j : nat) (x : Q) :
  (k < n)%nat -> one_hot n k !! j = Some x ->
  (j = k /\ x = 1) \/ (j <> k /\ x = 0).
Proof.
  unfold one_hot, zeros. intros Hk H.
  destruct (decide (j = k)) as [->|Hne].
  - rewrite list_lookup_insert_eq in H by by rewrite length_replicate.
    left. by injection H as <-.
  - rewrite list_lookup_insert_ne in H by done.
    apply lookup_replicate in H as [-> _]. by right.
Qed.

Lemma argmax_one_hot (n k : nat) :
  (k < n)%nat -> argmax (one_hot n k) = Returns k.
Proof.
  intros Hk.
  destruct (argmax (one_hot n k)) as [a| |] eqn:E.
  - apply TrainingFacts.argmax_first_max in E as (x & Hx & Hmax & Hfirst).
    destruct (lookup_one_hot _ _ _ _ Hk Hx) as [[-> _]|[_ ->]]; [done|].
    assert (H1 : one_hot n k !! k = Some 1).
    { unfold one_hot, zeros.
      apply list_lookup_insert_eq. by rewrite length_replicate. }
    apply Hmax in H1. by vm_compute in H1.
  - unfold one_hot, zeros in E. destruct n; [lia|].
    destruct k; discriminate E.
  - unfold one_hot, zeros in E. destruct n; [lia|].
    destruct k; discriminate E.
Qed.

Lemma argmax_replicate (n : nat) (q : Q) :
  (0 < n)%nat -> argmax (replicate n q) = Returns 0%nat.
Proof.
  intros Hn.
  destruct (argmax (replicate n q)) as [a| |] eqn:E.
  - apply TrainingFacts.argmax_first_max in E as (x & Hx & _ & Hfirst).
    apply lookup_replicate in Hx as [-> Ha].
    destruct a as [|a]; [done|].
    assert (H0 : replicate n q !! 0%nat = Some q)
      by (apply lookup_replicate; split; [done|lia]).
    apply Hfirst in H0; [|lia]. by apply Qlt_irrefl in H0.
  - destruct n; [lia|discriminate E].
  - destruct n; [lia|discriminate E].
Qed.

(** X17: a policy returned by [policy_iteration] can be played: in every
    state of the table [np.argmax(policy[state])] raises nothing and is
    an action of the table, the one the row marks or, on a row left
    uniform, action 0; so no pass of the loop of [play_episodes] fails
    in such a state. *)
Theorem solver_policy_playable `{G : Gym} environment discount_factor
    max_iterations policy V s :
  policy_iteration environment discount_factor max_iterations
    = Returns (Some (policy, V)) ->
  (s < nS environment)%nat ->
  (0 < nA environment)%nat ->
  (exists row action,
     subscript policy s = Returns row
     /\ argmax row = Returns action
     /\ (action < nA environment)%nat
     /\ (row = one_hot (nA environment) action
         \/ (row = uniform_row environment /\ action = 0%nat)))
  /\ forall p, state p = s -> exists p', play_step policy p = Returns p'.
Proof.
  intros H Hs HnA.
  apply SolverFacts.policy_iteration_policy_rows in H as [Hlen Hrows].
  destruct (lookup_lt_is_Some_2 policy s) as [row Hrow]; [lia|].
  assert (Hplay : exists action,
             argmax row = Returns action
             /\ (action < nA environment)%nat
             /\ (row = one_hot (nA environment) action
                 \/ (row = uniform_row environment /\ action = 0%nat))).
  { destruct (Hrows _ _ Hrow) as [->|(k & Hk & ->)].
    - exists 0%nat. split; [by apply argmax_replicate|]. split; [done|].
      by right.
    - exists k. split; [by apply argmax_one_hot|]. split; [done|]. by left. }
  destruct Hplay as (action & Hact & Hlt & Hshape).
  split.
  - exists row, action. unfold subscript. by rewrite Hrow.
  - intros p <-. unfold play_step, subscript. rewrite Hrow. simpl.
    rewrite Hact. simpl.
    destruct (gym_step (gym p) action) as [g [[s' r] d]]. by eexists.
Qed.

(** *** Playing on the ring *)

Lemma ring_play_returns :
  @play_episodes ring_gym 5 0%nat 2%Z one_place_on
  = Returns (fst (fst ring_tally), snd (fst ring_tally), snd ring_tally).
Proof. vm_compute. reflexivity. Qed.

Lemma ring_sparse_rewards : @sparse_rewards ring_gym.
Proof.
  intros g action. unfold step_result. simpl. unfold MonteCarlo.ring_step.
  destruct (_ =? 3)%nat; [right|left]; by vm_compute.
Defined.

Lemma play_episodes_tally_witness :
  (2 <> 0
   /\ Z.of_nat (fst (fst ring_tally)) <= Z.max 0 2
   /\ snd ring_tally = (snd (fst ring_tally) / inject_Z 2)%Q)%Z
  /\ @play_episodes ring_gym 5 0%nat 0%Z one_place_on
     = Raises ZeroDivisionError
  /\ @play_episodes ring_gym 5 0%nat (-1)%Z one_place_on
     = Returns (0%nat, 0, 0 / inject_Z (-1)).
Proof.
  split; [|split].
  - exact (proj1 (play_episodes_tally (G := ring_gym) 5 0%nat 2%Z
                    one_place_on) _ _ _ ring_play_returns).
  - exact (proj1 (proj2 (play_episodes_tally (G := ring_gym) 5 0%nat 0%Z
                           one_place_on)) eq_refl).
  - exact (proj2 (proj2 (play_episodes_tally (G := ring_gym) 5 0%nat (-1)%Z
                           one_place_on)) eq_refl).
Defined.

Lemma play_episodes_wins_are_rewards_witness :
  snd (fst ring_tally) == inject_Z (Z.of_nat (fst (fst ring_tally))).
Proof.
  exact (play_episodes_wins_are_rewards (G := ring_gym) _ _ _ _ _ _ _
           ring_sparse_rewards ring_play_returns).
Defined.

Lemma solver_policy_playable_witness :
  (exists row action,
     subscript (fst two_armed_solution) 0 = Returns row
     /\ argmax row = Returns action
     /\ (action < nA two_armed)%nat
     /\ (row = one_hot (nA two_armed) action
         \/ (row = uniform_row two_armed /\ action = 0%nat)))
  /\ forall p : @play ring_gym,
       state p = 0%nat ->
       exists p', play_step (fst two_armed_solution) p = Returns p'.
Proof.
  assert (Hs : (0 < nS two_armed)%nat) by (simpl; lia).
  assert (Ha : (0 < nA two_armed)%nat) by (simpl; lia).
  exact (solver_policy_playable (G := ring_gym) _ _ _ _ _ 0%nat
           SolverFacts.two_armed_iteration_returns Hs Ha).
Defined.

End SimulationFacts.
